(** * molt-shield: the anonymisation pipeline, its rule detector and its vault

    A shallow embedding of [src/vault.py], [src/policy_engine.py],
    [src/gatekeeper.py] and the parts of [src/config.py] they read, followed
    by the properties of the specification that concern them.

    Conventions.
    - Python [str] is [string] (bytes of the ASCII range; the predicates
      on characters below are those of [re] and [str] on that range).
    - A Python [dict] used as a map is a [gmap]; where iteration order is
      visible (rule order in the detector) an association list is used.
    - Mutable objects (the vault, the element tree, the file system) are
      passed and returned explicitly.
    - Calls that leave the program (uuid4, the clock, the random generator,
      the XML serialiser) are inputs of the model. *)

From Stdlib Require Import ZArith NArith List Ascii String Lia Permutation.
From stdpp Require Import base option list gmap strings.
Import ListNotations.

Set Warnings "-register-all".

Local Open Scope string_scope.
Local Open Scope list_scope.

(* ===================================================================== *)
(** * Characters and text *)
(* ===================================================================== *)

Module Text.

Definition chars (s : string) : list ascii := list_ascii_of_string s.
Definition str (l : list ascii) : string := string_of_list_ascii l.

Definition code (c : ascii) : nat := nat_of_ascii c.

Definition in_range (lo hi : nat) (c : ascii) : bool :=
  (lo <=? code c)%nat && (code c <=? hi)%nat.

(** [\d] on ASCII. *)
Definition is_digit (c : ascii) : bool := in_range 48 57 c.
Definition is_lower (c : ascii) : bool := in_range 97 122 c.
Definition is_upper (c : ascii) : bool := in_range 65 90 c.

(** The character class [[a-zA-Z0-9]]. *)
Definition is_alnum (c : ascii) : bool := is_lower c || is_upper c || is_digit c.

(** The characters [str.strip()] removes: TAB..CR, FS..US and space. *)
Definition is_space (c : ascii) : bool :=
  in_range 9 13 c || in_range 28 31 c || (code c =? 32)%nat.

Definition lower_char (c : ascii) : ascii :=
  if is_upper c then ascii_of_nat (code c + 32) else c.

(** [s.lower()] *)
Definition lower (s : string) : string := str (map lower_char (chars s)).

Fixpoint lstrip (l : list ascii) : list ascii :=
  match l with
  | c :: l' => if is_space c then lstrip l' else l
  | [] => []
  end.

(** [s.strip()] *)
Definition strip (s : string) : string :=
  str (rev (lstrip (rev (lstrip (chars s))))).

Fixpoint starts_with (p l : list ascii) : bool :=
  match p, l with
  | [], _ => true
  | a :: p', b :: l' => if decide (a = b) then starts_with p' l' else false
  | _ :: _, [] => false
  end.

Fixpoint find_in (p l : list ascii) : bool :=
  starts_with p l ||
  match l with
  | [] => false
  | _ :: l' => find_in p l'
  end.

(** [needle in hay] *)
Definition contains (needle hay : string) : bool :=
  find_in (chars needle) (chars hay).

(** Longest prefix of characters satisfying [p], and what follows it. *)
Fixpoint span (p : ascii -> bool) (l : list ascii) : list ascii * list ascii :=
  match l with
  | c :: l' =>
      if p c then let '(a, b) := span p l' in (c :: a, b) else ([], l)
  | [] => ([], [])
  end.

(** [re.fullmatch] of the grammar [-?\d+\.?\d*]:
    an optional sign, digits, and optionally a dot and more digits. *)
Definition numeric_chars (l : list ascii) : bool :=
  let body := match l with
              | c :: l' => if decide (c = "-"%char) then l' else l
              | [] => l
              end in
  let '(int_part, rest) := span is_digit body in
  match int_part with
  | [] => false
  | _ :: _ =>
      match rest with
      | [] => true
      | c :: frac =>
          if decide (c = "."%char)
          then match snd (span is_digit frac) with [] => true | _ :: _ => false end
          else false
      end
  end.

Definition numeric_fullmatch (s : string) : bool := numeric_chars (chars s).

Definition hex_digit (n : N) : ascii :=
  match n with
  | 0 => "0" | 1 => "1" | 2 => "2" | 3 => "3" | 4 => "4" | 5 => "5"
  | 6 => "6" | 7 => "7" | 8 => "8" | 9 => "9" | 10 => "a" | 11 => "b"
  | 12 => "c" | 13 => "d" | 14 => "e" | _ => "f"
  end%N%char.

(** The [k] low hexadecimal digits of [u], most significant first. *)
Fixpoint hex_be (k : nat) (u : N) : list ascii :=
  match k with
  | O => []
  | S k' => hex_be k' (u / 16)%N ++ [hex_digit (u mod 16)%N]
  end.

Definition is_hex (c : ascii) : bool := is_digit c || in_range 97 102 c.

(** Replace every occurrence of the field [{uuid}] by [uid]. *)
Fixpoint subst_field (skip : nat) (uid : list ascii) (l : list ascii) : list ascii :=
  match l with
  | [] => []
  | c :: l' =>
      match skip with
      | S k => subst_field k uid l'
      | O =>
          if starts_with (chars "{uuid}") l
          then uid ++ subst_field 5 uid l'
          else c :: subst_field 0 uid l'
      end
  end.

(** [format_str.format(uuid=uid)] for templates whose only replacement
    field is [{uuid}] (no brace escapes, no other fields). *)
Definition format (format_str uid : string) : string :=
  str (subst_field 0 (chars uid) (chars format_str)).

End Text.


(* ===================================================================== *)
(** * The world outside the program *)
(* ===================================================================== *)

(** Exceptions that reach the caller. [CorruptVaultError] is the error
    kind named by the specification; no definition below raises it. *)
Inductive exn :=
| OSError
| XMLSyntaxError
| JSONDecodeError
| AttributeError
| CorruptVaultError.

Global Instance exn_eq_dec : EqDecision exn.
Proof. solve_decision. Defined.

(** The sources of fresh values: the [k]-th call of [uuid.uuid4()] builds
    its UUID from the sixteen random bytes [uuid4_bytes k] (as a big-endian
    integer), and the [k]-th reading of the clock prints as [utcnow k]. *)
Record Env := {
  uuid4_bytes : nat -> N;
  utcnow : nat -> string;
}.

(* ===================================================================== *)
(** * vault.py *)
(* ===================================================================== *)

Record VaultEntry := {
  masked_value : string;
  original_value : string;
  created_at : string;
}.

Global Instance VaultEntry_eq_dec : EqDecision VaultEntry.
Proof. solve_decision. Defined.

Record Vault := {
  path : string;
  entries : gmap string VaultEntry;
}.

(** [Vault.__init__] *)
Definition Vault_init (p : string) : Vault :=
  {| path := p; entries := ∅ |}.

(** [uuid.UUID(bytes=..., version=4).int]: the random bytes with the
    variant and version bits set. *)
Definition uuid4_int (bytes : N) : N :=
  let i := (bytes mod 2 ^ 128)%N in
  let i := N.ldiff i (N.shiftl 0xc000 48) in
  let i := N.lor i (N.shiftl 0x8000 48) in
  let i := N.ldiff i (N.shiftl 0xf000 64) in
  N.lor i (N.shiftl 4 76).

(** [uuid.uuid4().hex[:12]]: [hex] is the 32 digits of the UUID's
    integer, of which the first twelve are kept. *)
Definition uuid_hex12 (bytes : N) : string :=
  Text.str (take 12 (Text.hex_be 32 (uuid4_int bytes))).

Definition default_format : string := "VAL_{uuid}".

(** [Vault.store]: [u] is the random bytes of the UUID drawn by this call
    and [now] the clock's reading. Returns the placeholder and the updated
    vault. *)
Definition store (v : Vault) (original : string) (format_str : string)
    (u : N) (now : string) : string * Vault :=
  let uid := uuid_hex12 u in
  let masked := Text.format format_str uid in
  (masked,
   {| path := path v;
      entries := <[masked := {| masked_value := masked;
                                original_value := original;
                                created_at := now |}]> (entries v) |}).

(** [Vault.restore] *)
Definition restore (v : Vault) (masked : string) : option string :=
  match entries v !! masked with
  | Some entry => Some (original_value entry)
  | None => None
  end.

(** [Vault.rehydrate_value] *)
Definition rehydrate_value (v : Vault) (value : string) : string :=
  match restore v value with
  | Some original => original
  | None => value
  end.

(** The values [rehydrate_dict] walks: what [json.loads] returns. *)
Inductive scalar :=
| SNone
| SBool (b : bool)
| SInt (z : Z)
| SFloat (repr : string).

Inductive pydata :=
| PDict (items : list (string * pydata))
| PList (items : list pydata)
| PStr (s : string)
| PScalar (x : scalar).

(** [Vault.rehydrate_dict] *)
Fixpoint rehydrate_dict (v : Vault) (data : pydata) : pydata :=
  match data with
  | PDict items => PDict (map (fun kv => (fst kv, rehydrate_dict v (snd kv))) items)
  | PList items => PList (map (rehydrate_dict v) items)
  | PStr s => PStr (rehydrate_value v s)
  | PScalar x => PScalar x
  end.

(** The literal prefix of the pattern of [rehydrate_xml]. *)
Definition VAL_ : list ascii := Text.chars "VAL_".

(** A match of [VAL_[a-zA-Z0-9]+] at the head of [l]: the prefix and the
    longest run of alphanumerics after it. *)
Definition token_at (l : list ascii) : option (list ascii) :=
  if Text.starts_with VAL_ l then
    match fst (Text.span Text.is_alnum (drop 4 l)) with
    | [] => None
    | c :: run => Some (VAL_ ++ c :: run)
    end
  else None.

(** [re.sub(r"VAL_[a-zA-Z0-9]+", repl, s)]: leftmost matches, each as long
    as possible, none overlapping. [skip] counts the characters of the
    current match still to be passed over. *)
Fixpoint re_sub (repl : string -> string) (skip : nat) (l : list ascii) : list ascii :=
  match l with
  | [] => []
  | c :: l' =>
      match skip with
      | S k => re_sub repl k l'
      | O =>
          match token_at l with
          | Some tok => Text.chars (repl (Text.str tok)) ++ re_sub repl (length tok - 1) l'
          | None => c :: re_sub repl 0 l'
          end
      end
  end.

(** A text that cannot take part in a match of the pattern: it is not
    empty and has none of the characters [V], [A], [L], [_]. The numeric
    texts that stage A stores are of this kind. *)
Definition inert (o : string) : bool :=
  match Text.chars o with
  | [] => false
  | _ :: _ => forallb (fun c => negb (bool_decide (c ∈ VAL_))) (Text.chars o)
  end.

(** The inner function [replace_match] of [rehydrate_xml]. *)
Definition replace_match (v : Vault) (masked : string) : string :=
  match restore v masked with
  | Some original => original
  | None => masked
  end.

(** [Vault.rehydrate_xml] *)
Definition rehydrate_xml (v : Vault) (xml_content : string) : string :=
  Text.str (re_sub (replace_match v) 0 (Text.chars xml_content)).

(* ===================================================================== *)
(** * The document model (lxml) *)
(* ===================================================================== *)

(** [etree.QName(elem)]: the namespace and the local name of a tag. *)
Record QName := {
  namespace : option string;
  localname : string;
}.

Global Instance QName_eq_dec : EqDecision QName.
Proof. solve_decision. Defined.

(** An lxml node. [tag] is [None] for the nodes whose [.tag] is not a
    [str] (comments, processing instructions, entities). A child carries
    its [tail] with it when it is removed and appended. *)
Inductive Element :=
| Node (tag : option QName) (attrib : list (string * string))
       (text : option string) (children : list Element) (tail : option string).

Record ElementTree := { getroot : Element }.

Definition tag_of (e : Element) : option QName :=
  match e with Node t _ _ _ _ => t end.
Definition attrib_of (e : Element) : list (string * string) :=
  match e with Node _ a _ _ _ => a end.
Definition text_of (e : Element) : option string :=
  match e with Node _ _ x _ _ => x end.
Definition children_of (e : Element) : list Element :=
  match e with Node _ _ _ c _ => c end.
Definition tail_of (e : Element) : option string :=
  match e with Node _ _ _ _ t => t end.

(** [root.iter()] on a tree that is not modified meanwhile: the nodes in
    document order. *)
Fixpoint iter (e : Element) : list Element :=
  match e with
  | Node _ _ _ ch _ => e :: flat_map iter ch
  end.

(* ===================================================================== *)
(** * Files *)
(* ===================================================================== *)

(** A [pathlib.Path] of a file, printed as [parent/stem suffix]. *)
Record Path := {
  parent : string;
  stem : string;
  suffix : string;
}.

Definition path_str (p : Path) : string :=
  (parent p ++ "/" ++ stem p ++ suffix p)%string.

(** A file, by what its readers make of its text: an XML document that
    [etree.parse] accepts, a JSON text in the vault storage format (an
    object of objects with the three fields of [VaultEntry]), or a text
    that is neither XML nor JSON. *)
Inductive file :=
| XmlFile (doc : ElementTree)
| VaultJson (data : gmap string VaultEntry)
| Unparsable (raw : string).

(** What persists between calls: the files by path, and how many UUIDs
    (and clock readings) have been consumed. *)
Record World := {
  fs : gmap string file;
  draws : nat;
}.

(** [Vault.save]: the entries as they are replace whatever the file held. *)
Definition save (v : Vault) (files : gmap string file) : string * gmap string file :=
  (path v, <[path v := VaultJson (entries v)]> files).

(** [Vault.load] *)
Definition load (v : Vault) (files : gmap string file) : exn + Vault :=
  match files !! path v with
  | None => inr v
  | Some (VaultJson raw) => inr {| path := path v; entries := raw |}
  | Some (XmlFile _) | Some (Unparsable _) => inl JSONDecodeError
  end.

(** [etree.parse(str(xml_path))] *)
Definition etree_parse (files : gmap string file) (p : string) : exn + ElementTree :=
  match files !! p with
  | None => inl OSError
  | Some (XmlFile doc) => inr doc
  | Some (VaultJson _) | Some (Unparsable _) => inl XMLSyntaxError
  end.

(* ===================================================================== *)
(** * config.py *)
(* ===================================================================== *)

(** [value_pattern] is the regular expression by its [fullmatch]. *)
Record MaskingConfig := {
  value_pattern : string -> bool;
  uuid_format : string;
  preserve_attributes : list string;
}.

Record ShufflingConfig := {
  enabled : bool;
  seed : option Z;
  target_tags : list string;
}.

Record PolicyEngineConfig := {
  masking : MaskingConfig;
  shuffling : ShufflingConfig;
  vault_path : string;
  strict_mode : bool;
}.

Definition MaskingConfig_default : MaskingConfig :=
  {| value_pattern := Text.numeric_fullmatch;
     uuid_format := "VAL_{uuid}";
     preserve_attributes := ["id"; "type"] |}.

Definition ShufflingConfig_default : ShufflingConfig :=
  {| enabled := true;
     seed := None;
     target_tags := ["element"; "node"; "component"] |}.

Definition PolicyEngineConfig_default : PolicyEngineConfig :=
  {| masking := MaskingConfig_default;
     shuffling := ShufflingConfig_default;
     vault_path := "./session_vault.json";
     strict_mode := false |}.

(* ===================================================================== *)
(** * policy_engine.py *)
(* ===================================================================== *)

Inductive action :=
| preserve
| redact
| mask_value
| shuffle_siblings_action.

Global Instance action_eq_dec : EqDecision action.
Proof. solve_decision. Defined.

Record Rule := {
  tag_pattern : string;
  rule_action : action;
  parameters : option (list (string * string));
}.

Global Instance Rule_eq_dec : EqDecision Rule.
Proof. solve_decision. Defined.

Record Policy := {
  version : string;
  global_masking : bool;
  rules : list Rule;
  policy_created_at : option string;
}.

Definition _SENSITIVE_KEYWORDS : list string :=
  ["pressure"; "temperature"; "velocity"; "coord"; "val"; "force"; "stress"].

(** [_NUMERIC_RE.match(text)] for [^-?\d+\.?\d*$] on a stripped text. *)
Definition _NUMERIC_RE_match (text : string) : bool := Text.numeric_fullmatch text.

(** [child_tags[ctag] = child_tags.get(ctag, 0) + 1], keys in the order of
    their first insertion. *)
Fixpoint count_tag (ctag : string) (child_tags : list (string * nat)) : list (string * nat) :=
  match child_tags with
  | [] => [(ctag, 1)]
  | (k, n) :: rest =>
      if decide (k = ctag) then (k, S n) :: rest else (k, n) :: count_tag ctag rest
  end.

Definition count_child (child_tags : list (string * nat)) (child : Element) : list (string * nat) :=
  match tag_of child with
  | Some q => if decide (localname q = "") then child_tags else count_tag (localname q) child_tags
  | None => child_tags
  end.

Definition detector_state : Type := gset string * list Rule.

Definition shuffle_rule (tag ctag : string) : Rule :=
  {| tag_pattern := tag; rule_action := shuffle_siblings_action;
     parameters := Some [("child_tag", ctag)] |}.

Definition mask_rule (tag : string) : Rule :=
  {| tag_pattern := tag; rule_action := mask_value; parameters := None |}.

(** The last loop of the body: one candidate rule per repeated child tag. *)
Definition emit_shuffle (tag : string) (st : detector_state) (item : string * nat) : detector_state :=
  let '(seen_tags, rules) := st in
  let '(ctag, count) := item in
  let shuffle_key := (tag ++ "/" ++ ctag)%string in
  if (2 <=? count)%nat && negb (bool_decide (shuffle_key ∈ seen_tags))
  then ({[shuffle_key]} ∪ seen_tags, rules ++ [shuffle_rule tag ctag])
  else st.

(** The body of the loop of [generate_policy] for one [elem]. *)
Definition detect_elem (st : detector_state) (elem : Element) : detector_state :=
  let '(seen_tags, rules) := st in
  match tag_of elem with
  | None => st
  | Some q =>
      let tag := localname q in
      let tag_lower := Text.lower tag in
      if existsb (fun kw => Text.contains kw tag_lower) _SENSITIVE_KEYWORDS
         && negb (bool_decide (tag ∈ seen_tags))
      then ({[tag]} ∪ seen_tags, rules ++ [mask_rule tag])
      else
        let text := Text.strip (default "" (text_of elem)) in
        if negb (bool_decide (text = "")) && _NUMERIC_RE_match text
           && negb (bool_decide (tag ∈ seen_tags))
        then ({[tag]} ∪ seen_tags, rules ++ [mask_rule tag])
        else
          let child_tags := fold_left count_child (children_of elem) [] in
          fold_left (emit_shuffle tag) child_tags st
  end.

(** The rules [generate_policy] accumulates over [root.iter()]. *)
Definition detect_rules (root : Element) : list Rule :=
  snd (fold_left detect_elem (iter root) (∅, [])).

(** [generate_policy], from the parsed file; [now] is the clock's reading. *)
Definition generate_policy (files : gmap string file) (xml_path : string)
    (now : string) : exn + Policy :=
  match etree_parse files xml_path with
  | inl e => inl e
  | inr tree =>
      inr {| version := "1.0";
             global_masking := false;
             rules := detect_rules (getroot tree);
             policy_created_at := Some now |}
  end.

(* ===================================================================== *)
(** * gatekeeper.py *)
(* ===================================================================== *)

Definition DEFAULT_TAG_MAP : gmap string string :=
  <["pressure" := "metric_alpha"]>
  (<["temperature" := "thermal_beta"]>
  (<["velocity" := "kinematic_gamma"]>
  (<["coordinates" := "spatial_delta"]> ∅))).

(** A loop over a list that threads a state: [for c in l: c' = f(c)]. *)
Definition for_each {A B S : Type} (f : A -> S -> B * S) : list A -> S -> list B * S :=
  fix go (l : list A) (s : S) : list B * S :=
    match l with
    | [] => ([], s)
    | c :: l' =>
        let '(c', s1) := f c s in
        let '(l'', s2) := go l' s1 in
        (c' :: l'', s2)
    end.

(** The state of the masking loop: the number of UUIDs consumed, and the
    vault. *)
Definition mask_state : Type := nat * Vault.

(** The body of the loop of [mask_values] on one element's tag and text.
    [store] is called with its default [format_str]. *)
Definition mask_text (masking_config : MaskingConfig) (env : Env)
    (tag : option QName) (elem_text : option string) (st : mask_state)
    : option string * mask_state :=
  match tag with
  | None => (elem_text, st)
  | Some _ =>
      let text := Text.strip (default "" elem_text) in
      if negb (bool_decide (text = "")) && value_pattern masking_config text
      then
        let '(k, vault) := st in
        let '(placeholder, vault') :=
          store vault text default_format (uuid4_bytes env k) (utcnow env k) in
        (Some placeholder, (S k, vault'))
      else (elem_text, st)
  end.

(** The condition under which the body masks the text of [elem]. *)
Definition maskable (masking_config : MaskingConfig) (elem : Element) : bool :=
  match tag_of elem with
  | None => false
  | Some _ =>
      let text := Text.strip (default "" (text_of elem)) in
      negb (bool_decide (text = "")) && value_pattern masking_config text
  end.

(** The text the body files in the vault for [elem]. *)
Definition stripped_text (elem : Element) : string :=
  Text.strip (default "" (text_of elem)).

(** The body of the loop on the node [elem]. *)
Definition mask_node (masking_config : MaskingConfig) (env : Env)
    (elem : Element) (st : mask_state) : option string * mask_state :=
  mask_text masking_config env (tag_of elem) (text_of elem) st.

(** The placeholder that the [j]-th UUID gives under [store]'s default
    template. *)
Definition placeholder_of (env : Env) (j : nat) : string :=
  Text.format default_format (uuid_hex12 (uuid4_bytes env j)).

(** The loop of [mask_values] over [root.iter()]: an element, then its
    children from left to right. *)
Fixpoint mask_elem (masking_config : MaskingConfig) (env : Env)
    (e : Element) (st : mask_state) : Element * mask_state :=
  match e with
  | Node tag att txt ch tl =>
      let '(txt', st1) := mask_text masking_config env tag txt st in
      let '(ch', st2) := for_each (mask_elem masking_config env) ch st1 in
      (Node tag att txt' ch' tl, st2)
  end.

(** [mask_values] *)
Definition mask_values (env : Env) (tree : ElementTree)
    (masking_config : MaskingConfig) (st : mask_state) : ElementTree * mask_state :=
  let '(root, st') := mask_elem masking_config env (getroot tree) st in
  ({| getroot := root |}, st').

(** What the pipeline calls and does not define.
    - [rng] is the state of a [random.Random]; [rng_seed a] is the state
      after seeding with the integer [a]; [rng_draw] is one draw.
    - [tostring] is [etree.tostring(tree, encoding='unicode')].
    - [iter_resume]: lxml's iterator has already chosen the element it
      yields next when the loop body runs. After the children of an
      element were reordered by the permutation [p] of their indices, the
      iteration goes on at position [iter_resume p] of the new order
      (0 when the new first child is visited next; the new position of
      the old first child when that one is). *)
Class Lib := {
  rng : Type;
  rng_seed : Z -> rng;
  rng_draw : rng -> nat * rng;
  tostring : ElementTree -> string;
  iter_resume : list nat -> nat;
}.

(** [random.Random(seed)]: without a seed the state comes from the
    system's entropy [urandom]. *)
Definition Random `{Lib} (seed : option Z) (urandom : Z) : rng :=
  match seed with
  | Some a => rng_seed a
  | None => rng_seed urandom
  end.

(** [rng._randbelow(n)]: a number below [n]. *)
Definition randbelow `{Lib} (g : rng) (n : nat) : nat * rng :=
  let '(r, g') := rng_draw g in (r mod n, g').

(** [x[i], x[j] = x[j], x[i]] *)
Definition swap {A : Type} (x : list A) (i j : nat) : list A :=
  match x !! i, x !! j with
  | Some xi, Some xj => <[j := xi]> (<[i := xj]> x)
  | _, _ => x
  end.

(** The loop of [random.shuffle]:
    [for i in reversed(range(1, len(x))): j = randbelow(i + 1); swap]. *)
Fixpoint shuffle_from `{Lib} {A : Type} (i : nat) (x : list A) (g : rng) : list A * rng :=
  match i with
  | O => (x, g)
  | S i' =>
      let '(j, g') := randbelow g (S i) in
      shuffle_from i' (swap x i j) g'
  end.

(** [rng.shuffle(x)] *)
Definition rng_shuffle `{Lib} {A : Type} (x : list A) (g : rng) : list A * rng :=
  shuffle_from (length x - 1) x g.

(** Run the pending visits of a list of children in order. *)
Definition visit `{Lib} (kids : list (Element * (rng -> Element * rng))) (g : rng)
    : list Element * rng :=
  for_each (fun kid => snd kid) kids g.

(** The loop of [shuffle_siblings] from one element on. Each child is
    paired with its own pending visit, so that the children can be
    reordered before they are visited: lines 95-100 permute the pairs, and
    the visits then run in the new order from where the iteration goes on;
    the children before that point are left as they are. *)
Fixpoint shuffle_elem `{Lib} (should : string -> bool) (e : Element)
    : rng -> Element * rng :=
  match e with
  | Node tag att txt ch tl =>
      let kids := map (fun c => (c, shuffle_elem should c)) ch in
      fun g =>
        let '(kids', g1, from) :=
          match tag with
          | None => (kids, g, 0)
          | Some q =>
              if should (localname q) && (2 <=? length ch)%nat
              then
                let '(shuffled, g') := rng_shuffle kids g in
                (shuffled, g', iter_resume (fst (rng_shuffle (seq 0 (length ch)) g)))
              else (kids, g, 0)
          end in
        let '(visited, g2) := visit (drop from kids') g1 in
        (Node tag att txt (map fst (take from kids') ++ visited) tl, g2)
  end.

(** [shuffle_siblings] on a parsed tree. The tree is modified in place
    and its serialisation is returned: the result is the tree as it is
    afterwards, and the returned [str]. *)
Definition shuffle_siblings `{Lib} (urandom : Z) (tree : ElementTree)
    (shuffling_config : ShufflingConfig) (rules : option (list Rule))
    : ElementTree * string :=
  if negb (enabled shuffling_config) then (tree, tostring tree)
  else
    let g := Random (seed shuffling_config) urandom in
    let shuffle_parents : option (list string) :=
      match rules with
      | Some (r :: rs) =>
          Some (map tag_pattern
                  (filter (fun r => rule_action r = shuffle_siblings_action) (r :: rs)))
      | Some [] | None => None
      end in
    let should (tag : string) : bool :=
      match shuffle_parents with
      | Some parents => bool_decide (tag ∈ parents)
      | None => bool_decide (tag ∈ target_tags shuffling_config)
      end in
    let tree' := {| getroot := fst (shuffle_elem should (getroot tree) g) |} in
    (tree', tostring tree').

(** The condition of line 94 on an element with tag [tag] and children
    [ch]; elements whose tag is not a [str] are passed over. *)
Definition should_process (should : string -> bool) (tag : option QName)
    (ch : list Element) : bool :=
  match tag with
  | Some q => should (localname q) && (2 <=? length ch)%nat
  | None => false
  end.

(** Two trees that differ in the order of siblings only: the same tag,
    attributes, text and tail at the root, and the children of the second
    are those of the first in some order, each differing from its
    original in the order of siblings only. *)
Inductive reordered : Element -> Element -> Prop :=
| reordered_node tag att txt tl ch ch0 ch' :
    Permutation ch ch0 ->
    Forall2 reordered ch0 ch' ->
    reordered (Node tag att txt ch tl) (Node tag att txt ch' tl).

(** The new tag of an element under [tag_map]. *)
Definition shadow_tag (tag_map : gmap string string) (tag : option QName) : option QName :=
  match tag with
  | None => None
  | Some q =>
      match tag_map !! localname q with
      | Some new =>
          match namespace q with
          | Some ns =>
              if decide (ns = "")
              then Some {| namespace := None; localname := new |}
              else Some {| namespace := Some ns; localname := new |}
          | None => Some {| namespace := None; localname := new |}
          end
      | None => Some q
      end
  end.

Fixpoint shadow_elem (tag_map : gmap string string) (e : Element) : Element :=
  match e with
  | Node tag att txt ch tl =>
      Node (shadow_tag tag_map tag) att txt (map (shadow_elem tag_map) ch) tl
  end.

(** What the variable [tree] of [apply_gatekeeper] can hold. *)
Inductive pyobj :=
| PyTree (t : ElementTree)
| PyStr (s : string).

(** [_apply_tag_shadowing]: [tree.getroot()] exists on a tree only. *)
Definition _apply_tag_shadowing (tree : pyobj) (tag_map : gmap string string)
    : exn + ElementTree :=
  match tree with
  | PyTree t => inr {| getroot := shadow_elem tag_map (getroot t) |}
  | PyStr _ => inl AttributeError
  end.

Definition sanitized_path_of (out_dir : string) (xml_path : Path) : string :=
  (out_dir ++ "/" ++ stem xml_path ++ "_sanitized.xml")%string.

(** [apply_gatekeeper], with the configuration given. [urandom] is the
    entropy a generator without a seed would start from. The result is
    the pair of paths or the exception raised, and the world afterwards. *)
Definition apply_gatekeeper `{Lib} (env : Env) (urandom : Z) (w : World)
    (xml_path : Path) (policy : Policy) (config : PolicyEngineConfig)
    (output_dir : option string) (tag_map : option (gmap string string))
    : (exn + (string * string)) * World :=
  let out_dir :=
    match output_dir with
    | Some d => if decide (d = "") then parent xml_path else d
    | None => parent xml_path
    end in
  match etree_parse (fs w) (path_str xml_path) with
  | inl e => (inl e, w)
  | inr tree =>
      let vault := Vault_init (vault_path config) in
      (* 1. Mask numeric values *)
      let mask_rules := filter (fun r => rule_action r = mask_value) (rules policy) in
      let '(tree1, (k1, vault1)) :=
        if global_masking policy || negb (bool_decide (mask_rules = []))
        then mask_values env tree (masking config) (draws w, vault)
        else (tree, (draws w, vault)) in
      (* 2. Shuffle siblings *)
      let shuffle_rules :=
        filter (fun r => rule_action r = shuffle_siblings_action) (rules policy) in
      let tree2 :=
        if enabled (shuffling config) && negb (bool_decide (shuffle_rules = []))
        then PyStr (snd (shuffle_siblings urandom tree1 (shuffling config) (Some shuffle_rules)))
        else PyTree tree1 in
      (* 3. Tag shadowing *)
      let effective_map := default DEFAULT_TAG_MAP tag_map in
      match _apply_tag_shadowing tree2 effective_map with
      | inl e => (inl e, {| fs := fs w; draws := k1 |})
      | inr tree3 =>
          (* Write outputs *)
          let sanitized_path := sanitized_path_of out_dir xml_path in
          let files1 := <[sanitized_path := XmlFile tree3]> (fs w) in
          let '(_, files2) := save vault1 files1 in
          (inr (sanitized_path, vault_path config), {| fs := files2; draws := k1 |})
      end
  end.

(** The conditions of stages 1 and 2, as [apply_gatekeeper] writes them. *)
Definition masking_active (policy : Policy) : bool :=
  global_masking policy
  || negb (bool_decide (filter (fun r => rule_action r = mask_value) (rules policy) = [])).

Definition shuffling_active (policy : Policy) (config : PolicyEngineConfig) : bool :=
  enabled (shuffling config)
  && negb (bool_decide
             (filter (fun r => rule_action r = shuffle_siblings_action) (rules policy) = [])).

(** The tree and the state after stage 1. *)
Definition after_masking (env : Env) (w : World) (tree : ElementTree)
    (policy : Policy) (config : PolicyEngineConfig) : ElementTree * mask_state :=
  if masking_active policy
  then mask_values env tree (masking config) (draws w, Vault_init (vault_path config))
  else (tree, (draws w, Vault_init (vault_path config))).

(* ===================================================================== *)
(** * The remaining operations of the vault *)
(* ===================================================================== *)

(** [Vault.__len__] *)
Definition Vault_len (v : Vault) : nat := size (entries v).

(** [Vault.__contains__] *)
Definition Vault_contains (v : Vault) (masked : string) : bool :=
  bool_decide (is_Some (entries v !! masked)).

(** A text that is, as a whole, one match of [VAL_[a-zA-Z0-9]+]. *)
Definition is_token (s : string) : bool :=
  bool_decide (token_at (Text.chars s) = Some (Text.chars s)).

(** A nested value with every string leaf blanked: the keys of mappings,
    the lengths of sequences and the scalars that are not strings. *)
Fixpoint shape (data : pydata) : pydata :=
  match data with
  | PDict items => PDict (map (fun kv => (fst kv, shape (snd kv))) items)
  | PList items => PList (map shape items)
  | PStr _ => PStr ""
  | PScalar x => PScalar x
  end.

(* ===================================================================== *)
(** * Views of a tree used to state what the stages keep *)
(* ===================================================================== *)

(** The tree with every text removed. *)
Fixpoint erase_text (e : Element) : Element :=
  match e with
  | Node tag att _ ch tl => Node tag att None (map erase_text ch) tl
  end.

(** What a node carries besides its children. *)
Definition label (e : Element) : option QName * list (string * string)
                                 * option string * option string :=
  (tag_of e, attrib_of e, text_of e, tail_of e).


(* ===================================================================== *)
(** * policy_engine.py: serialisation helpers *)
(* ===================================================================== *)

(** What building a value from a parsed JSON value can give: the value,
    the [KeyError] of a subscript on a missing key, or [OutsideTypes] for
    an input that is not of the shape the declared types of [Rule] and
    [Policy] have. On such an input Python raises a [TypeError] or an
    [AttributeError], or builds an object whose fields are not of their
    declared types (the dataclasses do not check them); these cases are
    not told apart here. *)
Inductive built (A : Type) :=
| Built (x : A)
| KeyError (key : string)
| OutsideTypes.
Arguments Built {A} x.
Arguments KeyError {A} key.
Arguments OutsideTypes {A}.

(** [d.get(key)] on the items of a [dict]. *)
Fixpoint dict_get (items : list (string * pydata)) (key : string) : option pydata :=
  match items with
  | [] => None
  | (k, x) :: rest => if decide (k = key) then Some x else dict_get rest key
  end.

(** The four literals of [Rule.action]. *)
Definition action_name (a : action) : string :=
  match a with
  | preserve => "preserve"
  | redact => "redact"
  | mask_value => "mask_value"
  | shuffle_siblings_action => "shuffle_siblings"
  end.

Definition action_of_name (s : string) : option action :=
  if decide (s = "preserve") then Some preserve
  else if decide (s = "redact") then Some redact
  else if decide (s = "mask_value") then Some mask_value
  else if decide (s = "shuffle_siblings") then Some shuffle_siblings_action
  else None.

Definition parameters_to_data (ps : list (string * string)) : pydata :=
  PDict (map (fun kv => (fst kv, PStr (snd kv))) ps).

(** [_rule_to_dict]: [parameters] is written only when it is truthy
    (neither [None] nor an empty [dict]). *)
Definition _rule_to_dict (rule : Rule) : pydata :=
  PDict ([("tag_pattern", PStr (tag_pattern rule));
          ("action", PStr (action_name (rule_action rule)))]
         ++ match parameters rule with
            | Some (p :: ps) => [("parameters", parameters_to_data (p :: ps))]
            | Some [] | None => []
            end).

(** The items of a [dict] of strings. *)
Fixpoint string_items (items : list (string * pydata)) : option (list (string * string)) :=
  match items with
  | [] => Some []
  | (k, PStr s) :: rest =>
      match string_items rest with
      | Some l => Some ((k, s) :: l)
      | None => None
      end
  | _ :: _ => None
  end.

(** [_rule_from_dict]: [d["tag_pattern"]], [d["action"]], [d.get("parameters")]. *)
Definition _rule_from_dict (d : pydata) : built Rule :=
  match d with
  | PDict items =>
      match dict_get items "tag_pattern" with
      | None => KeyError "tag_pattern"
      | Some tag =>
          match dict_get items "action" with
          | None => KeyError "action"
          | Some act =>
              match tag, act with
              | PStr t, PStr a =>
                  match action_of_name a with
                  | None => OutsideTypes
                  | Some a' =>
                      match dict_get items "parameters" with
                      | None | Some (PScalar SNone) =>
                          Built {| tag_pattern := t; rule_action := a'; parameters := None |}
                      | Some (PDict ps) =>
                          match string_items ps with
                          | Some l =>
                              Built {| tag_pattern := t; rule_action := a';
                                       parameters := Some l |}
                          | None => OutsideTypes
                          end
                      | Some _ => OutsideTypes
                      end
                  end
              | _, _ => OutsideTypes
              end
          end
      end
  | _ => OutsideTypes
  end.

(** The [dict] that [save_policy] hands to [json.dumps]. *)
Definition save_policy_data (policy : Policy) : pydata :=
  PDict [("version", PStr (version policy));
         ("global_masking", PScalar (SBool (global_masking policy)));
         ("rules", PList (map _rule_to_dict (rules policy)));
         ("created_at", match policy_created_at policy with
                        | Some t => PStr t
                        | None => PScalar SNone
                        end)].

(** [[_rule_from_dict(r) for r in l]]: the first failure ends the
    comprehension. *)
Fixpoint rules_from_list (l : list pydata) : built (list Rule) :=
  match l with
  | [] => Built []
  | d :: rest =>
      match _rule_from_dict d with
      | Built r =>
          match rules_from_list rest with
          | Built rs => Built (r :: rs)
          | KeyError k => KeyError k
          | OutsideTypes => OutsideTypes
          end
      | KeyError k => KeyError k
      | OutsideTypes => OutsideTypes
      end
  end.

(** [load_policy] on the value [json.loads] returned: every field has a
    default. *)
Definition load_policy_data (data : pydata) : built Policy :=
  match data with
  | PDict items =>
      match default (PStr "1.0") (dict_get items "version"),
            default (PScalar (SBool false)) (dict_get items "global_masking"),
            default (PList []) (dict_get items "rules"),
            default (PScalar SNone) (dict_get items "created_at") with
      | PStr ver, PScalar (SBool gm), PList rs, created =>
          match rules_from_list rs with
          | Built rules' =>
              match created with
              | PStr t =>
                  Built {| version := ver; global_masking := gm; rules := rules';
                           policy_created_at := Some t |}
              | PScalar SNone =>
                  Built {| version := ver; global_masking := gm; rules := rules';
                           policy_created_at := None |}
              | _ => OutsideTypes
              end
          | KeyError k => KeyError k
          | OutsideTypes => OutsideTypes
          end
      | _, _, _, _ => OutsideTypes
      end
  | _ => OutsideTypes
  end.

(** A rule as it comes back from its [dict]: an empty [parameters] has
    become [None]. *)
Definition reloaded (rule : Rule) : Rule :=
  {| tag_pattern := tag_pattern rule;
     rule_action := rule_action rule;
     parameters := match parameters rule with
                   | Some (p :: ps) => Some (p :: ps)
                   | Some [] | None => None
                   end |}.

(** The first check of the detector on a tag. *)
Definition has_keyword (tag : string) : bool :=
  existsb (fun kw => Text.contains kw (Text.lower tag)) _SENSITIVE_KEYWORDS.

(** The second check of the detector on an element's text. *)
Definition has_numeric_text (elem : Element) : bool :=
  negb (bool_decide (stripped_text elem = "")) && _NUMERIC_RE_match (stripped_text elem).

(** The number of children with the local name [ctag]. *)
Definition count_local (ctag : string) (ch : list Element) : nat :=
  length (List.filter
            (fun child => match tag_of child with
                          | Some q => bool_decide (localname q = ctag)
                          | None => false
                          end) ch).

(** [child_tags.get(ctag, 0)] *)
Fixpoint count_get (child_tags : list (string * nat)) (ctag : string) : nat :=
  match child_tags with
  | [] => 0
  | (k, n) :: rest => if decide (k = ctag) then n else count_get rest ctag
  end.

(* ===================================================================== *)
(** * Sample inputs *)
(* ===================================================================== *)

Definition elem (name : string) (txt : option string) (ch : list Element) : Element :=
  Node (Some {| namespace := None; localname := name |}) [] txt ch None.

(** [<root><element><pressure>123.45</pressure></element>
          <element><pressure>678.90</pressure></element></root>] *)
Definition sample_root : Element :=
  elem "root" None
    [ elem "element" None [ elem "pressure" (Some "123.45") [] ];
      elem "element" None [ elem "pressure" (Some "678.90") [] ] ].

Definition sample_tree : ElementTree := {| getroot := sample_root |}.

Definition sample_path : Path :=
  {| parent := "data"; stem := "sample"; suffix := ".xml" |}.

Definition sample_world : World :=
  {| fs := {[ "data/sample.xml" := XmlFile sample_tree ]}; draws := 0 |}.

(** Masking for [pressure], shuffling under [root]. *)
Definition sample_policy : Policy :=
  {| version := "1.0";
     global_masking := true;
     rules := [ mask_rule "pressure"; shuffle_rule "root" "element" ];
     policy_created_at := None |}.

(** The same policy without its shuffling rule. *)
Definition masking_policy : Policy :=
  {| version := "1.0";
     global_masking := true;
     rules := [ mask_rule "pressure" ];
     policy_created_at := None |}.

(** UUIDs whose first twelve digits count 1, 2, 3, ... *)
Definition counting_env : Env :=
  {| uuid4_bytes := fun k => (N.of_nat (S k) * 2 ^ 80)%N;
     utcnow := fun _ => "2025-01-01T00:00:00+00:00" |}.

(** UUIDs that are all the same. *)
Definition constant_env : Env :=
  {| uuid4_bytes := fun _ => 0%N;
     utcnow := fun _ => "2025-01-01T00:00:00+00:00" |}.

(** A stand-in for the library in examples: a counter as generator, a
    serialiser that prints tags and texts, and an iteration that goes on
    at the old first child. *)
Fixpoint render (e : Element) : string :=
  match e with
  | Node tag _ txt ch tl =>
      let name := match tag with Some q => localname q | None => "!" end in
      ("<" ++ name ++ ">" ++ default "" txt
       ++ fold_right (fun c acc => render c ++ acc) "" ch
       ++ "</" ++ name ++ ">" ++ default "" tl)%string
  end.

Fixpoint index_of (n : nat) (l : list nat) : nat :=
  match l with
  | [] => 0
  | m :: l' => if decide (m = n) then 0 else S (index_of n l')
  end.

Definition sample_lib : Lib :=
  {| rng := nat;
     rng_seed := fun a => Z.to_nat (Z.abs a);
     rng_draw := fun g => (g, S g);
     tostring := fun t => render (getroot t);
     iter_resume := index_of 0 |}.

(** [<values><v>a</v><v>b</v></values>]: a repeated child under a tag
    that contains the keyword [val]. *)
Definition values_doc : Element :=
  elem "values" None [ elem "v" (Some "a") []; elem "v" (Some "b") [] ].

(** The same children under a tag that no keyword matches. *)
Definition group_doc : Element :=
  elem "group" None [ elem "v" (Some "a") []; elem "v" (Some "b") [] ].

(** [<item>5<a/><a/></item>]: a repeated child under an element with a
    numeric text. *)
Definition numeric_parent_doc : Element :=
  elem "item" (Some "5") [ elem "a" None []; elem "a" None [] ].

Definition seeded_config : ShufflingConfig :=
  {| enabled := true; seed := Some 42%Z; target_tags := ["element"] |}.

Definition unseeded_config : ShufflingConfig :=
  {| enabled := true; seed := None; target_tags := ["element"] |}.

(** The vault after [store("123.45")] and [store("678.90")]. *)
Definition sample_vault : Vault :=
  snd (store
         (snd (store (Vault_init "vault.json") "123.45" default_format
                 (uuid4_bytes counting_env 0) (utcnow counting_env 0)))
         "678.90" default_format (uuid4_bytes counting_env 1) (utcnow counting_env 1)).

(** The vault after [store("VAL_000000000002")] and [store("x")]: the
    first original value is the placeholder of the second. *)
Definition chained_vault : Vault :=
  snd (store
         (snd (store (Vault_init "vault.json") "VAL_000000000002" default_format
                 (uuid4_bytes counting_env 0) (utcnow counting_env 0)))
         "x" default_format (uuid4_bytes counting_env 1) (utcnow counting_env 1)).

(** Two [values] elements with the same repeated child. *)
Definition twice_doc : Element :=
  elem "root" None
    [ elem "values" None [ elem "v" None []; elem "v" None [] ];
      elem "values" None [ elem "v" None []; elem "v" None [] ] ].

(** [<a><a><x/><y/></a><b/></a>]: a shuffled parent under a shuffled
    parent. *)
Definition nested_doc : Element :=
  elem "a" None
    [ elem "a" None [ elem "x" None []; elem "y" None [] ]; elem "b" None [] ].

Definition seeded (s : Z) : ShufflingConfig :=
  {| enabled := true; seed := Some s; target_tags := [] |}.

(** A vault filled through another template: [store("123.45", "ID_{uuid}")]. *)
Definition custom_vault : Vault :=
  snd (store (Vault_init "vault.json") "123.45" "ID_{uuid}"
         (uuid4_bytes counting_env 0) (utcnow counting_env 0)).

(* ===================================================================== *)
(** * Properties *)
(* ===================================================================== *)

(** ** Text *)

Lemma chars_str l : Text.chars (Text.str l) = l.
Proof. apply list_ascii_of_string_of_list_ascii. Qed.

Lemma str_chars s : Text.str (Text.chars s) = s.
Proof. apply string_of_list_ascii_of_string. Qed.

Lemma str_inj l1 l2 : Text.str l1 = Text.str l2 -> l1 = l2.
Proof. intros E. rewrite <- (chars_str l1), <- (chars_str l2). now rewrite E. Qed.

Lemma str_app l1 l2 : Text.str (l1 ++ l2) = (Text.str l1 ++ Text.str l2)%string.
Proof. induction l1 as [|c l1 IH]; simpl; [reflexivity | now rewrite IH]. Qed.

Lemma str_length l : String.length (Text.str l) = length l.
Proof. induction l as [|c l IH]; simpl; [reflexivity | now rewrite IH]. Qed.

Lemma hex_be_length k u : length (Text.hex_be k u) = k.
Proof.
  revert u. induction k as [|k IH]; intros u; simpl; [reflexivity|].
  rewrite length_app, IH. simpl. lia.
Qed.

Lemma hex_digit_is_hex n : Text.is_hex (Text.hex_digit n) = true.
Proof.
  destruct n as [|p]; [reflexivity|].
  do 4 (destruct p as [p|p|]; try reflexivity).
Qed.

Lemma hex_be_is_hex k u : Forall (fun c => Text.is_hex c = true) (Text.hex_be k u).
Proof.
  revert u. induction k as [|k IH]; intros u; simpl; [constructor|].
  apply Forall_app; split; [apply IH|].
  constructor; [apply hex_digit_is_hex | constructor].
Qed.

Lemma is_hex_alnum c : Text.is_hex c = true -> Text.is_alnum c = true.
Proof.
  destruct c as [[] [] [] [] [] [] [] []]; vm_compute; intros E;
    first [reflexivity | discriminate E].
Qed.

(** The identifier of a placeholder: twelve lower-case hexadecimal digits. *)
Lemma uid_chars_length u : length (Text.chars (uuid_hex12 u)) = 12.
Proof.
  unfold uuid_hex12. rewrite chars_str, length_take, hex_be_length. reflexivity.
Qed.

Lemma uid_chars_hex u : Forall (fun c => Text.is_hex c = true) (Text.chars (uuid_hex12 u)).
Proof. unfold uuid_hex12. rewrite chars_str. apply Forall_take, hex_be_is_hex. Qed.

Lemma uuid_hex12_length u : String.length (uuid_hex12 u) = 12.
Proof. rewrite <- (str_chars (uuid_hex12 u)), str_length. apply uid_chars_length. Qed.

Lemma format_default uid :
  Text.format default_format uid = ("VAL_" ++ uid)%string.
Proof.
  unfold Text.format, default_format. simpl.
  rewrite app_nil_r. simpl. now rewrite str_chars.
Qed.

(** ** The vault *)

Lemma store_placeholder v x fmt u now :
  fst (store v x fmt u now) = Text.format fmt (uuid_hex12 u).
Proof. reflexivity. Qed.

Lemma store_lookup_ne v x fmt u now k :
  k <> fst (store v x fmt u now) ->
  entries (snd (store v x fmt u now)) !! k = entries v !! k.
Proof. intros Hne. simpl in *. apply lookup_insert_ne. intros E. now apply Hne. Qed.

Lemma store_lookup_eq v x fmt u now :
  entries (snd (store v x fmt u now)) !! fst (store v x fmt u now)
  = Some {| masked_value := fst (store v x fmt u now);
            original_value := x; created_at := now |}.
Proof. simpl. apply lookup_insert_eq. Qed.

Lemma store_path v x fmt u now : path (snd (store v x fmt u now)) = path v.
Proof. reflexivity. Qed.

(** C2, first half, for reference below: what [store] files under the
    placeholder it returns is the original, untouched. *)
Lemma restore_store v x fmt u now :
  restore (snd (store v x fmt u now)) (fst (store v x fmt u now)) = Some x.
Proof. unfold restore. now rewrite store_lookup_eq. Qed.

(** C4, as the code has it. [Vault.store] changes the entries map at the
    placeholder it generates and nowhere else: every pair filed under
    another key is unchanged; the pair filed under the generated
    placeholder is the new one whatever was there, and the placeholder is
    the one built from the single identifier [u] of the call (no second
    identifier is drawn when the key is taken). *)
Theorem store_changes_only_generated_key v x fmt u now :
  let p := fst (store v x fmt u now) in
  let v' := snd (store v x fmt u now) in
  (forall k, k <> p -> entries v' !! k = entries v !! k)
  /\ p = Text.format fmt (uuid_hex12 u)
  /\ entries v' !! p
     = Some {| masked_value := p; original_value := x; created_at := now |}.
Proof.
  intros p v'. split; [|split].
  - intros k Hk. now apply store_lookup_ne.
  - reflexivity.
  - apply store_lookup_eq.
Qed.

Lemma store_changes_only_generated_key_witness :
  let v := snd (store (Vault_init "vault.json") "1.5" default_format 7 "t0") in
  "VAL_other" <> fst (store v "2.5" default_format 7 "t1")
  /\ entries (snd (store v "2.5" default_format 7 "t1")) !! "VAL_other"
     = entries v !! "VAL_other".
Proof.
  intros v.
  assert (Hne : "VAL_other" <> fst (store v "2.5" default_format 7 "t1")).
  { vm_compute. discriminate. }
  split; [exact Hne|].
  exact (proj1 (store_changes_only_generated_key v "2.5" default_format 7 "t1")
           "VAL_other" Hne).
Defined.

(** C4 as stated fails: a second [store] that draws the identifier of an
    earlier one replaces the earlier entry. *)
Lemma store_overwrites_on_collision :
  ~ (forall v x fmt u now k e,
        entries v !! k = Some e ->
        entries (snd (store v x fmt u now)) !! k = Some e).
Proof.
  intros claim.
  pose (v := snd (store (Vault_init "vault.json") "1.5" default_format 7 "t0")).
  pose (e := {| masked_value := "VAL_000000000000";
                original_value := "1.5"; created_at := "t0" |}).
  specialize (claim v "2.5" default_format 7%N "t1" "VAL_000000000000" e).
  assert (Hin : entries v !! "VAL_000000000000" = Some e) by (vm_compute; reflexivity).
  specialize (claim Hin).
  vm_compute in claim. discriminate claim.
Qed.

(** C5, as the code has it. Without a file [Vault.load] returns with the
    vault as it was. On a file that is not JSON it fails with the parser's
    [JSONDecodeError], which it does not catch; the vault is not replaced.
    It raises [CorruptVaultError] on no input. *)
Theorem load_missing_or_unparsable v files :
  (files !! path v = None -> load v files = inr v)
  /\ (forall raw, files !! path v = Some (Unparsable raw) ->
        load v files = inl JSONDecodeError)
  /\ load v files <> inl CorruptVaultError.
Proof.
  unfold load. split; [|split].
  - intros ->. reflexivity.
  - intros raw ->. reflexivity.
  - destruct (files !! path v) as [[doc|data|raw]|]; discriminate.
Qed.

Lemma load_missing_or_unparsable_witness :
  let v := snd (store (Vault_init "vault.json") "1.5" default_format 7 "t0") in
  ((∅ : gmap string file) !! path v = None /\ load v ∅ = inr v)
  /\ (<["vault.json" := Unparsable "{"]> (∅ : gmap string file) !! path v
        = Some (Unparsable "{")
      /\ load v (<["vault.json" := Unparsable "{"]> ∅) = inl JSONDecodeError).
Proof.
  intros v.
  assert (H1 : (∅ : gmap string file) !! path v = None) by reflexivity.
  assert (H2 : <["vault.json" := Unparsable "{"]> (∅ : gmap string file) !! path v
               = Some (Unparsable "{")) by (vm_compute; reflexivity).
  split; (split; [assumption|]).
  - exact (proj1 (load_missing_or_unparsable v ∅) H1).
  - exact (proj1 (proj2 (load_missing_or_unparsable v _)) "{" H2).
Defined.

(** C5 as stated fails: the error on an unparsable file is not the typed
    [CorruptVaultError]. *)
Lemma load_unparsable_not_corrupt_vault_error :
  ~ (forall v files raw,
        files !! path v = Some (Unparsable raw) ->
        load v files = inl CorruptVaultError).
Proof.
  intros claim.
  specialize (claim (Vault_init "vault.json")
                (<["vault.json" := Unparsable "{"]> ∅) "{").
  assert (H : <["vault.json" := Unparsable "{"]> (∅ : gmap string file)
              !! path (Vault_init "vault.json") = Some (Unparsable "{"))
    by (vm_compute; reflexivity).
  specialize (claim H). vm_compute in claim. discriminate claim.
Qed.

(** ** The pipeline when the shuffling stage runs *)

Lemma filter_nonempty {A} (P : A -> Prop) `{forall x, Decision (P x)} (l : list A) x :
  x ∈ l -> P x -> filter P l <> [].
Proof.
  intros Hin HP E.
  assert (Hx : x ∈ filter P l) by (apply list_elem_of_filter; auto).
  rewrite E in Hx. inversion Hx.
Qed.

(** Whenever the document parses, shuffling is enabled and the policy has
    a [shuffle_siblings] rule, [apply_gatekeeper] hands the [str] returned
    by [shuffle_siblings] to [_apply_tag_shadowing] and ends with
    [AttributeError]; no file is written. *)
Lemma apply_gatekeeper_shuffle_raises `{Lib} env u w xml_path policy config
    output_dir tag_map tree r :
  etree_parse (fs w) (path_str xml_path) = inr tree ->
  enabled (shuffling config) = true ->
  r ∈ rules policy ->
  rule_action r = shuffle_siblings_action ->
  fst (apply_gatekeeper env u w xml_path policy config output_dir tag_map)
    = inl AttributeError
  /\ fs (snd (apply_gatekeeper env u w xml_path policy config output_dir tag_map))
    = fs w.
Proof.
  intros Hparse Hen Hin Hact. unfold apply_gatekeeper. rewrite Hparse, Hen.
  destruct (if global_masking policy || _ then _ else _) as [tree1 [k1 vault1]].
  rewrite bool_decide_eq_false_2
    by (eapply (filter_nonempty (fun r => rule_action r = shuffle_siblings_action)); eauto).
  simpl. split; reflexivity.
Qed.

(** C1 at a failing input: with the sample document, the default
    configuration (shuffling enabled) and a policy that has a
    [shuffle_siblings] rule, the pipeline does not return the two paths:
    it raises [AttributeError] and writes neither output. *)
Theorem apply_gatekeeper_fails_when_shuffling_runs `{Lib} u :
  apply_gatekeeper counting_env u sample_world sample_path sample_policy
    PolicyEngineConfig_default None None
  = (inl AttributeError, {| fs := fs sample_world; draws := 2 |}).
Proof. vm_compute. reflexivity. Qed.

(** ** Masking, node by node *)

Lemma Element_ind_children (P : Element -> Prop) :
  (forall tag att txt ch tl, Forall P ch -> P (Node tag att txt ch tl)) ->
  forall e, P e.
Proof.
  intros step. fix IH 1. intros [tag att txt ch tl]. apply step.
  induction ch as [|c ch IHch]; constructor; [apply IH | apply IHch].
Qed.

Lemma for_each_cons {A B S} (f : A -> S -> B * S) c l s :
  for_each f (c :: l) s
  = (fst (f c s) :: fst (for_each f l (snd (f c s))),
     snd (for_each f l (snd (f c s)))).
Proof.
  simpl. destruct (f c s) as [c' s1]. simpl.
  destruct (for_each f l s1) as [l'' s2]. reflexivity.
Qed.

Lemma for_each_app {A B S} (f : A -> S -> B * S) l1 l2 s :
  for_each f (l1 ++ l2) s
  = (fst (for_each f l1 s) ++ fst (for_each f l2 (snd (for_each f l1 s))),
     snd (for_each f l2 (snd (for_each f l1 s)))).
Proof.
  revert s. induction l1 as [|c l1 IH]; intros s.
  - simpl. now destruct (for_each f l2 s).
  - rewrite <- app_comm_cons, !for_each_cons, IH. reflexivity.
Qed.

Lemma mask_elem_eq cfg env tag att txt ch tl st :
  mask_elem cfg env (Node tag att txt ch tl) st
  = (Node tag att (fst (mask_text cfg env tag txt st))
       (fst (for_each (mask_elem cfg env) ch (snd (mask_text cfg env tag txt st)))) tl,
     snd (for_each (mask_elem cfg env) ch (snd (mask_text cfg env tag txt st)))).
Proof.
  simpl. destruct (mask_text cfg env tag txt st) as [txt' st1]. simpl.
  destruct (for_each (mask_elem cfg env) ch st1) as [ch' st2]. reflexivity.
Qed.

(** The masking loop seen on the list of nodes in document order: the
    texts of the result are what the body returns node by node, the state
    is threaded through the nodes in that order, and tags are untouched. *)
Lemma mask_elem_iter cfg env e : forall st,
  for_each (mask_node cfg env) (iter e) st
  = (map text_of (iter (fst (mask_elem cfg env e st))), snd (mask_elem cfg env e st))
  /\ map tag_of (iter (fst (mask_elem cfg env e st))) = map tag_of (iter e).
Proof.
  induction e as [tag att txt ch tl IHch] using Element_ind_children. intros st.
  rewrite mask_elem_eq. cbn [fst snd iter].
  rewrite for_each_cons.
  change (mask_node cfg env (Node tag att txt ch tl) st)
    with (mask_text cfg env tag txt st).
  cbn [tag_of text_of map].
  set (st1 := snd (mask_text cfg env tag txt st)).
  assert (Hkids : forall s,
    for_each (mask_node cfg env) (flat_map iter ch) s
    = (map text_of (flat_map iter (fst (for_each (mask_elem cfg env) ch s))),
       snd (for_each (mask_elem cfg env) ch s))
    /\ map tag_of (flat_map iter (fst (for_each (mask_elem cfg env) ch s)))
       = map tag_of (flat_map iter ch)).
  { induction IHch as [|c ch Hc _ IH]; intros s; [split; reflexivity|].
    rewrite for_each_cons. cbn [fst snd flat_map].
    rewrite for_each_app, !map_app.
    destruct (Hc s) as [-> ->]. cbn [fst snd].
    destruct (IH (snd (mask_elem cfg env c s))) as [-> ->]. cbn [fst snd].
    split; reflexivity. }
  destruct (Hkids st1) as [-> ->]. cbn [fst snd]. split; reflexivity.
Qed.

Lemma mask_node_masks cfg env n k v :
  maskable cfg n = true ->
  mask_node cfg env n (k, v)
  = (Some (placeholder_of env k),
     (S k, snd (store v (stripped_text n) default_format (uuid4_bytes env k) (utcnow env k)))).
Proof.
  unfold maskable, mask_node, mask_text, stripped_text.
  destruct (tag_of n); [|discriminate]. intros ->. reflexivity.
Qed.

Lemma mask_node_skips cfg env n st :
  maskable cfg n = false -> mask_node cfg env n st = (text_of n, st).
Proof.
  unfold maskable, mask_node, mask_text.
  destruct (tag_of n); [|reflexivity]. intros ->. reflexivity.
Qed.

Section MaskList.
Context (cfg : MaskingConfig) (env : Env).

Let run (l : list Element) (k : nat) (v : Vault) :=
  for_each (mask_node cfg env) l (k, v).
Let stored (n : Element) (k : nat) (v : Vault) : Vault :=
  snd (store v (stripped_text n) default_format (uuid4_bytes env k) (utcnow env k)).

Lemma stored_lookup_eq n k v :
  entries (stored n k v) !! placeholder_of env k
  = Some {| masked_value := placeholder_of env k;
            original_value := stripped_text n;
            created_at := utcnow env k |}.
Proof. apply store_lookup_eq. Qed.

Lemma stored_lookup_ne n k v p :
  p <> placeholder_of env k -> entries (stored n k v) !! p = entries v !! p.
Proof. apply store_lookup_ne. Qed.

Lemma mask_list_nil k v : run [] k v = ([], (k, v)).
Proof. reflexivity. Qed.

Lemma mask_list_masks n l k v :
  maskable cfg n = true ->
  run (n :: l) k v
  = (Some (placeholder_of env k) :: fst (run l (S k) (stored n k v)),
     snd (run l (S k) (stored n k v))).
Proof.
  intros Hm. unfold run. rewrite for_each_cons, mask_node_masks by exact Hm.
  reflexivity.
Qed.

Lemma mask_list_skips n l k v :
  maskable cfg n = false ->
  run (n :: l) k v = (text_of n :: fst (run l k v), snd (run l k v)).
Proof.
  intros Hm. unfold run. rewrite for_each_cons, mask_node_skips by exact Hm.
  reflexivity.
Qed.

Ltac by_nodes l k v IH n :=
  revert k v; induction l as [|n l IH]; intros k v;
  [ rewrite mask_list_nil
  | destruct (maskable cfg n) eqn:Hm;
    [ rewrite (mask_list_masks n l k v Hm) | rewrite (mask_list_skips n l k v Hm) ] ];
  cbn [fst snd].

(** One UUID is consumed per masked node. *)
Lemma mask_list_draws l k v :
  fst (snd (run l k v)) = k + length (List.filter (maskable cfg) l).
Proof.
  by_nodes l k v IH n.
  - cbn [List.filter length]. lia.
  - rewrite IH. cbn [List.filter]. rewrite Hm. cbn [length]. lia.
  - rewrite IH. cbn [List.filter]. rewrite Hm. reflexivity.
Qed.

Lemma mask_list_draws_le l k v : k <= fst (snd (run l k v)).
Proof. rewrite mask_list_draws. lia. Qed.

Lemma mask_list_path l k v : path (snd (snd (run l k v))) = path v.
Proof.
  by_nodes l k v IH n; [reflexivity | now rewrite IH | apply IH].
Qed.

(** Every entry of the vault afterwards was there before or is filed
    under a placeholder generated by this run. *)
Lemma mask_list_keys l k v p e :
  entries (snd (snd (run l k v))) !! p = Some e ->
  entries v !! p = Some e
  \/ exists j, k <= j < fst (snd (run l k v))
               /\ p = placeholder_of env j /\ masked_value e = p.
Proof.
  by_nodes l k v IH n.
  - now left.
  - intros Hp. pose proof (mask_list_draws_le l (S k) (stored n k v)) as Hle.
    destruct (IH _ _ Hp) as [Hold | (j & Hj & -> & He)].
    + destruct (decide (p = placeholder_of env k)) as [->|Hne].
      * right. exists k. split; [lia|]. split; [reflexivity|].
        rewrite stored_lookup_eq in Hold. now inversion Hold.
      * left. now rewrite stored_lookup_ne in Hold.
    + right. exists j. split; [lia|]. split; [reflexivity | exact He].
  - apply IH.
Qed.

(** Keys that are not generated by this run keep what they had. *)
Lemma mask_list_frame l k v p :
  (forall j, k <= j < fst (snd (run l k v)) -> p <> placeholder_of env j) ->
  entries (snd (snd (run l k v))) !! p = entries v !! p.
Proof.
  by_nodes l k v IH n.
  - reflexivity.
  - intros Hp. pose proof (mask_list_draws_le l (S k) (stored n k v)) as Hle.
    rewrite IH by (intros j Hj; apply Hp; lia).
    apply stored_lookup_ne. apply Hp. lia.
  - apply IH.
Qed.

Lemma mask_list_keeps_keys l k v p :
  is_Some (entries v !! p) -> is_Some (entries (snd (snd (run l k v))) !! p).
Proof.
  by_nodes l k v IH n.
  - trivial.
  - intros Hp. apply IH.
    destruct (decide (p = placeholder_of env k)) as [->|Hne].
    + rewrite stored_lookup_eq. eauto.
    + now rewrite stored_lookup_ne.
  - apply IH.
Qed.

(** What the loop writes into each node: the text as it was, or the
    placeholder of one of the UUIDs of this run, which is a key of the
    vault afterwards. *)
Lemma mask_list_texts l k v :
  Forall2 (fun n o =>
             if maskable cfg n
             then exists j, k <= j < fst (snd (run l k v))
                            /\ o = Some (placeholder_of env j)
                            /\ is_Some (entries (snd (snd (run l k v))) !! placeholder_of env j)
             else o = text_of n)
    l (fst (run l k v)).
Proof.
  by_nodes l k v IH n.
  - constructor.
  - pose proof (mask_list_draws_le l (S k) (stored n k v)) as Hle.
    constructor.
    + rewrite Hm. exists k. split; [lia|]. split; [reflexivity|].
      apply mask_list_keeps_keys. rewrite stored_lookup_eq. eauto.
    + eapply Forall2_impl; [apply IH|]. cbv beta. intros m o Hmo.
      destruct (maskable cfg m); [|exact Hmo].
      destruct Hmo as (j & Hj & Ho & Hk). exists j. split; [lia|]. now split.
  - constructor; [now rewrite Hm | apply IH].
Qed.

(** When the placeholders of the run are pairwise distinct, each of them
    restores the stripped text of its node. *)
Lemma mask_list_restores l k v :
  NoDup (map (placeholder_of env) (seq k (fst (snd (run l k v)) - k))) ->
  Forall2 (fun n o =>
             if maskable cfg n
             then exists j, k <= j < fst (snd (run l k v))
                            /\ o = Some (placeholder_of env j)
                            /\ restore (snd (snd (run l k v))) (placeholder_of env j)
                               = Some (stripped_text n)
             else o = text_of n)
    l (fst (run l k v)).
Proof.
  by_nodes l k v IH n.
  - constructor.
  - pose proof (mask_list_draws_le l (S k) (stored n k v)) as Hle.
    set (k' := fst (snd (run l (S k) (stored n k v)))) in *.
    replace (k' - k) with (S (k' - S k)) by lia. cbn [seq map].
    intros Hnd. apply NoDup_cons in Hnd as [Hfresh Hnd].
    constructor.
    + rewrite Hm. exists k. split; [lia|]. split; [reflexivity|].
      unfold restore. rewrite mask_list_frame.
      * now rewrite stored_lookup_eq.
      * intros j Hj E. apply Hfresh. rewrite E.
        apply list_elem_of_fmap. exists j. split; [reflexivity|].
        apply elem_of_seq. fold k' in Hj. lia.
    + eapply Forall2_impl; [apply (IH _ _ Hnd)|]. cbv beta. intros m o Hmo.
      destruct (maskable cfg m); [|exact Hmo].
      destruct Hmo as (j & Hj & Ho & Hk). exists j. fold k' in Hj.
      split; [lia|]. now split.
  - intros Hnd. constructor; [now rewrite Hm | apply (IH _ _ Hnd)].
Qed.

End MaskList.

(** ** Masking on trees *)

Lemma mask_values_eq env tree cfg st :
  mask_values env tree cfg st
  = ({| getroot := fst (mask_elem cfg env (getroot tree) st) |},
     snd (mask_elem cfg env (getroot tree) st)).
Proof.
  unfold mask_values. now destruct (mask_elem cfg env (getroot tree) st).
Qed.

Lemma mask_values_run env tree cfg k v :
  for_each (mask_node cfg env) (iter (getroot tree)) (k, v)
  = (map text_of (iter (getroot (fst (mask_values env tree cfg (k, v))))),
     snd (mask_values env tree cfg (k, v))).
Proof.
  rewrite mask_values_eq. cbn [fst snd getroot].
  apply (mask_elem_iter cfg env (getroot tree) (k, v)).
Qed.

Lemma mask_values_state env tree cfg k v :
  snd (mask_values env tree cfg (k, v))
  = snd (for_each (mask_node cfg env) (iter (getroot tree)) (k, v)).
Proof. now rewrite mask_values_run. Qed.

Lemma mask_values_texts env tree cfg k v :
  map text_of (iter (getroot (fst (mask_values env tree cfg (k, v)))))
  = fst (for_each (mask_node cfg env) (iter (getroot tree)) (k, v)).
Proof. now rewrite mask_values_run. Qed.

Lemma shadow_elem_texts m e :
  map text_of (iter (shadow_elem m e)) = map text_of (iter e).
Proof.
  induction e as [tag att txt ch tl IHch] using Element_ind_children.
  cbn [shadow_elem iter map text_of]. f_equal.
  induction IHch as [|c ch Hc _ IH]; [reflexivity|].
  cbn [map flat_map]. rewrite !map_app, Hc, IH. reflexivity.
Qed.

(** ** A run of the pipeline that returns *)

(** What a returning run did: the document parsed, the shuffling stage
    was not entered, and the two files hold the shadowed tree after
    masking and the entries of the vault that masking started empty. *)
Lemma apply_gatekeeper_returns `{Lib} env u w xml_path policy config
    output_dir tag_map sp vp w' :
  apply_gatekeeper env u w xml_path policy config output_dir tag_map
    = (inr (sp, vp), w') ->
  exists tree,
    etree_parse (fs w) (path_str xml_path) = inr tree
    /\ shuffling_active policy config = false
    /\ vp = vault_path config
    /\ draws w' = fst (snd (after_masking env w tree policy config))
    /\ fs w' =
       <[vp := VaultJson (entries (snd (snd (after_masking env w tree policy config))))]>
         (<[sp := XmlFile
                    {| getroot :=
                         shadow_elem (default DEFAULT_TAG_MAP tag_map)
                           (getroot (fst (after_masking env w tree policy config))) |}]>
            (fs w)).
Proof.
  unfold apply_gatekeeper.
  destruct (etree_parse (fs w) (path_str xml_path)) as [e|tree]; [discriminate|].
  intros Hrun. exists tree. split; [reflexivity|].
  fold (masking_active policy) in Hrun.
  change (if masking_active policy
          then mask_values env tree (masking config)
                 (draws w, Vault_init (vault_path config))
          else (tree, (draws w, Vault_init (vault_path config))))
    with (after_masking env w tree policy config) in Hrun.
  fold (shuffling_active policy config) in Hrun.
  assert (Hpath : path (snd (snd (after_masking env w tree policy config)))
                  = vault_path config).
  { unfold after_masking. destruct (masking_active policy); [|reflexivity].
    rewrite mask_values_state. apply mask_list_path. }
  destruct (after_masking env w tree policy config) as [tree1 [k1 vault1]].
  cbn [fst snd] in *.
  destruct (shuffling_active policy config); [discriminate|].
  cbn in Hrun. inversion Hrun; subst. rewrite Hpath. repeat split; reflexivity.
Qed.

(** The vault after stage 1 holds only entries of this run: each is filed
    under the placeholder of a UUID drawn by the run. *)
Lemma after_masking_keys env w tree policy config p e :
  entries (snd (snd (after_masking env w tree policy config))) !! p = Some e ->
  exists j, draws w <= j < fst (snd (after_masking env w tree policy config))
            /\ p = placeholder_of env j /\ masked_value e = p.
Proof.
  unfold after_masking. destruct (masking_active policy).
  - rewrite mask_values_state. intros Hp.
    apply mask_list_keys in Hp as [Hold|Hnew]; [|exact Hnew].
    cbn in Hold. now rewrite lookup_empty in Hold.
  - cbn. now rewrite lookup_empty.
Qed.

(** The vault file a returning run leaves: whatever the path held before,
    it now holds exactly the entries of the vault this run started empty,
    all of them generated by this run. *)
Lemma apply_gatekeeper_vault_file `{Lib} env u w xml_path policy config
    output_dir tag_map sp vp w' :
  apply_gatekeeper env u w xml_path policy config output_dir tag_map
    = (inr (sp, vp), w') ->
  exists E,
    fs w' !! vault_path config = Some (VaultJson E)
    /\ forall p e, E !! p = Some e ->
         exists j, draws w <= j < draws w'
                   /\ p = placeholder_of env j /\ masked_value e = p.
Proof.
  intros Hrun.
  destruct (apply_gatekeeper_returns _ _ _ _ _ _ _ _ _ _ _ Hrun)
    as (tree & _ & _ & -> & Hdraws & Hfs).
  eexists. split.
  - rewrite Hfs. apply lookup_insert_eq.
  - intros p e Hp. rewrite Hdraws. eapply after_masking_keys, Hp.
Qed.

(** C10, as the code has it. Of two successive returning runs with the
    same configuration, the second leaves a vault file that holds only
    entries generated by the second run; hence every entry persisted by
    the first run is absent afterwards unless the second run generated its
    placeholder again. *)
Theorem second_run_replaces_vault_file `{Lib} env u1 u2 w0 w1 w2
    x1 x2 pol1 pol2 config o1 o2 t1 t2 sp1 vp1 sp2 vp2 :
  apply_gatekeeper env u1 w0 x1 pol1 config o1 t1 = (inr (sp1, vp1), w1) ->
  apply_gatekeeper env u2 w1 x2 pol2 config o2 t2 = (inr (sp2, vp2), w2) ->
  exists E1 E2,
    fs w1 !! vault_path config = Some (VaultJson E1)
    /\ fs w2 !! vault_path config = Some (VaultJson E2)
    /\ (forall p e, E2 !! p = Some e ->
          exists j, draws w1 <= j < draws w2
                    /\ p = placeholder_of env j /\ masked_value e = p)
    /\ (forall p, is_Some (E1 !! p) ->
          (forall j, draws w1 <= j < draws w2 -> p <> placeholder_of env j) ->
          E2 !! p = None).
Proof.
  intros Hrun1 Hrun2.
  destruct (apply_gatekeeper_vault_file _ _ _ _ _ _ _ _ _ _ _ Hrun1) as (E1 & HE1 & _).
  destruct (apply_gatekeeper_vault_file _ _ _ _ _ _ _ _ _ _ _ Hrun2) as (E2 & HE2 & Hkeys).
  exists E1, E2. repeat split; try assumption.
  intros p _ Hfresh. destruct (E2 !! p) as [e|] eqn:Hp; [|reflexivity].
  destruct (Hkeys p e Hp) as (j & Hj & -> & _). now destruct (Hfresh j Hj).
Qed.

Lemma second_run_replaces_vault_file_witness :
  let run w :=
    apply_gatekeeper (H := sample_lib) counting_env 0 w sample_path masking_policy
      PolicyEngineConfig_default None None in
  let sp := "data/sample_sanitized.xml" in
  let vp := "./session_vault.json" in
  let w1 := snd (run sample_world) in
  let w2 := snd (run w1) in
  run sample_world = (inr (sp, vp), w1)
  /\ run w1 = (inr (sp, vp), w2)
  /\ exists E1 E2,
       fs w1 !! vp = Some (VaultJson E1)
       /\ fs w2 !! vp = Some (VaultJson E2)
       /\ (forall p e, E2 !! p = Some e ->
             exists j, draws w1 <= j < draws w2
                       /\ p = placeholder_of counting_env j /\ masked_value e = p)
       /\ (forall p, is_Some (E1 !! p) ->
             (forall j, draws w1 <= j < draws w2 -> p <> placeholder_of counting_env j) ->
             E2 !! p = None).
Proof.
  intros run sp vp w1 w2.
  assert (H1 : run sample_world = (inr (sp, vp), w1)) by (vm_compute; reflexivity).
  assert (H2 : run w1 = (inr (sp, vp), w2)) by (vm_compute; reflexivity).
  split; [exact H1|]. split; [exact H2|].
  exact (second_run_replaces_vault_file (H := sample_lib) counting_env 0 0
           sample_world w1 w2 sample_path sample_path masking_policy masking_policy
           PolicyEngineConfig_default None None None None sp vp sp vp H1 H2).
Defined.

(** C10 as stated fails: when the second run draws a UUID of the first
    again, the entry the first run persisted under that placeholder is in
    the vault file after the second run. *)
Lemma second_run_may_keep_an_entry :
  ~ (forall (L : Lib) env u1 u2 w0 w1 w2 x1 x2 pol1 pol2 config o1 o2 t1 t2
            sp1 vp1 sp2 vp2 E1 E2 p e,
        apply_gatekeeper env u1 w0 x1 pol1 config o1 t1 = (inr (sp1, vp1), w1) ->
        apply_gatekeeper env u2 w1 x2 pol2 config o2 t2 = (inr (sp2, vp2), w2) ->
        fs w1 !! vault_path config = Some (VaultJson E1) ->
        fs w2 !! vault_path config = Some (VaultJson E2) ->
        E1 !! p = Some e ->
        E2 !! p <> Some e).
Proof.
  intros claim.
  pose (run w :=
    apply_gatekeeper (H := sample_lib) constant_env 0 w sample_path masking_policy
      PolicyEngineConfig_default None None).
  pose (e := {| masked_value := "VAL_000000000000";
                original_value := "678.90";
                created_at := "2025-01-01T00:00:00+00:00" |}).
  pose (E := <["VAL_000000000000" := e]> (∅ : gmap string VaultEntry)).
  apply (claim sample_lib constant_env 0%Z 0%Z sample_world
           (snd (run sample_world)) (snd (run (snd (run sample_world))))
           sample_path sample_path masking_policy masking_policy
           PolicyEngineConfig_default None None None None
           "data/sample_sanitized.xml" "./session_vault.json"
           "data/sample_sanitized.xml" "./session_vault.json"
           E E "VAL_000000000000" e); vm_compute; reflexivity.
Qed.

(** ** The scanner of [rehydrate_xml] *)

Lemma chars_app s1 s2 :
  Text.chars (s1 ++ s2)%string = Text.chars s1 ++ Text.chars s2.
Proof.
  unfold Text.chars. induction s1 as [|c s1 IH]; [reflexivity|].
  change (list_ascii_of_string (String c (s1 +:+ s2))
          = c :: (list_ascii_of_string s1 ++ list_ascii_of_string s2)).
  cbn [list_ascii_of_string]. f_equal. exact IH.
Qed.

Lemma span_app p l : fst (Text.span p l) ++ snd (Text.span p l) = l.
Proof.
  induction l as [|c l IH]; cbn; [reflexivity|].
  destruct (p c); [|reflexivity].
  destruct (Text.span p l) as [a b]. cbn in *. now rewrite IH.
Qed.

Lemma span_prefix p l : Forall (fun c => p c = true) (fst (Text.span p l)).
Proof.
  induction l as [|c l IH]; cbn; [constructor|].
  destruct (p c) eqn:Hc; [|constructor].
  destruct (Text.span p l) as [a b]. cbn in *. now constructor.
Qed.

Lemma span_stop p l :
  match snd (Text.span p l) with
  | [] => True
  | c :: _ => p c = false
  end.
Proof.
  induction l as [|c l IH]; cbn; [exact I|].
  destruct (p c) eqn:Hc; [|exact Hc].
  destruct (Text.span p l) as [a b]. exact IH.
Qed.

Lemma span_all p l rest :
  Forall (fun c => p c = true) l ->
  match rest with [] => True | c :: _ => p c = false end ->
  Text.span p (l ++ rest) = (l, rest).
Proof.
  intros Hl Hrest. induction Hl as [|c l Hc _ IH].
  - destruct rest as [|c rest]; [reflexivity|].
    cbn [app Text.span]. now rewrite Hrest.
  - rewrite <- app_comm_cons. cbn [Text.span]. now rewrite Hc, IH.
Qed.

Lemma re_sub_skip repl l1 l2 :
  re_sub repl (length l1) (l1 ++ l2) = re_sub repl 0 l2.
Proof. induction l1 as [|c l1 IH]; [reflexivity | exact IH]. Qed.

(** The shape of a match: the prefix, a non-empty run of alphanumerics,
    and a rest that does not continue the run. *)
Lemma token_at_Some l tok :
  token_at l = Some tok ->
  exists c run rest,
    tok = VAL_ ++ c :: run /\ l = tok ++ rest
    /\ Forall (fun x => Text.is_alnum x = true) (c :: run)
    /\ match rest with [] => True | x :: _ => Text.is_alnum x = false end.
Proof.
  unfold token_at. destruct (Text.starts_with VAL_ l) eqn:Hpre; [|discriminate].
  assert (Hl : l = VAL_ ++ drop 4 l).
  { do 4 (destruct l as [|? l]; [discriminate|]; cbn in Hpre;
          match type of Hpre with
          | context [decide ?P] => destruct (decide P) as [<-|]; [|discriminate]
          end).
    reflexivity. }
  pose proof (span_app Text.is_alnum (drop 4 l)) as Happ.
  pose proof (span_prefix Text.is_alnum (drop 4 l)) as Hrun.
  pose proof (span_stop Text.is_alnum (drop 4 l)) as Hstop.
  destruct (Text.span Text.is_alnum (drop 4 l)) as [[|c run] rest];
    cbn [fst snd] in *; [discriminate|].
  intros [= <-]. exists c, run, rest. split; [reflexivity|].
  split; [|split; assumption].
  rewrite Hl at 1. rewrite <- Happ. reflexivity.
Qed.

Lemma token_at_intro c run rest :
  Forall (fun x => Text.is_alnum x = true) (c :: run) ->
  match rest with [] => True | x :: _ => Text.is_alnum x = false end ->
  token_at (VAL_ ++ (c :: run) ++ rest) = Some (VAL_ ++ c :: run).
Proof.
  intros Hrun Hrest. unfold token_at.
  assert (E1 : Text.starts_with VAL_ (VAL_ ++ (c :: run) ++ rest) = true)
    by reflexivity.
  assert (E2 : drop 4 (VAL_ ++ (c :: run) ++ rest) = (c :: run) ++ rest)
    by reflexivity.
  rewrite E1, E2, (span_all Text.is_alnum (c :: run) rest Hrun Hrest).
  reflexivity.
Qed.

Lemma re_sub_token repl tok rest :
  token_at (tok ++ rest) = Some tok ->
  re_sub repl 0 (tok ++ rest) = Text.chars (repl (Text.str tok)) ++ re_sub repl 0 rest.
Proof.
  intros Htok. destruct tok as [|c tok].
  - apply token_at_Some in Htok as (? & ? & ? & E & _). discriminate E.
  - cbn [app re_sub]. cbn [app] in Htok. rewrite Htok.
    replace (length (c :: tok) - 1) with (length tok) by (cbn [length]; lia).
    rewrite re_sub_skip. reflexivity.
Qed.

Lemma re_sub_char repl c l :
  token_at (c :: l) = None -> re_sub repl 0 (c :: l) = c :: re_sub repl 0 l.
Proof. intros Htok. cbn [re_sub]. now rewrite Htok. Qed.

Lemma placeholder_chars env j :
  Text.chars (placeholder_of env j) = VAL_ ++ Text.chars (uuid_hex12 (uuid4_bytes env j)).
Proof. unfold placeholder_of. now rewrite format_default, chars_app. Qed.

(** A placeholder on its own is one match, replaced as a whole. *)
Lemma rehydrate_xml_placeholder v env j :
  rehydrate_xml v (placeholder_of env j) = replace_match v (placeholder_of env j).
Proof.
  unfold rehydrate_xml. rewrite placeholder_chars.
  pose proof (uid_chars_length (uuid4_bytes env j)) as Hlen.
  pose proof (uid_chars_hex (uuid4_bytes env j)) as Hhex.
  destruct (Text.chars (uuid_hex12 (uuid4_bytes env j))) as [|c run] eqn:Huid;
    [discriminate Hlen|].
  assert (Halnum : Forall (fun x => Text.is_alnum x = true) (c :: run)).
  { eapply Forall_impl; [exact Hhex|]. intros x. apply is_hex_alnum. }
  pose proof (token_at_intro c run [] Halnum I) as Htok.
  rewrite app_nil_r in Htok.
  rewrite <- (app_nil_r (VAL_ ++ c :: run)) at 1.
  rewrite re_sub_token by (now rewrite app_nil_r).
  cbn [re_sub]. rewrite app_nil_r, str_chars.
  rewrite <- Huid, <- placeholder_chars, str_chars. reflexivity.
Qed.

(** ** Placeholders and round trips through the pipeline *)

Lemma Forall2_map_r {A B C} (P : A -> C -> Prop) (f : B -> C) l k :
  Forall2 P l (map f k) -> Forall2 (fun x y => P x (f y)) l k.
Proof.
  revert l. induction k as [|y k IH]; intros l Hl; inversion Hl; subst;
    constructor; auto.
Qed.

Lemma map_eq_Forall2 {A B} (f : A -> B) l k :
  map f k = map f l -> Forall2 (fun x y => f y = f x) l k.
Proof.
  revert k. induction l as [|x l IH]; intros [|y k] E; try discriminate E;
    constructor; inversion E; auto.
Qed.

(** C9, as the code has it. When the configured template is the default
    ["VAL_{uuid}"], every text masked by stage A is replaced by that
    template filled with the first twelve hexadecimal digits (48 bits) of
    a UUID drawn during the run, and this placeholder is a key of the
    vault afterwards; texts that are not masked are unchanged. *)
Theorem mask_values_placeholders env tree cfg k v :
  uuid_format cfg = default_format ->
  Forall2 (fun n n' =>
             if maskable cfg n
             then exists j,
                 k <= j < fst (snd (mask_values env tree cfg (k, v)))
                 /\ text_of n'
                    = Some (Text.format (uuid_format cfg) (uuid_hex12 (uuid4_bytes env j)))
                 /\ String.length (uuid_hex12 (uuid4_bytes env j)) = 12
                 /\ Forall (fun c => Text.is_hex c = true)
                      (Text.chars (uuid_hex12 (uuid4_bytes env j)))
                 /\ is_Some (entries (snd (snd (mask_values env tree cfg (k, v))))
                             !! Text.format (uuid_format cfg) (uuid_hex12 (uuid4_bytes env j)))
             else text_of n' = text_of n)
    (iter (getroot tree)) (iter (getroot (fst (mask_values env tree cfg (k, v))))).
Proof.
  intros ->.
  apply (Forall2_map_r
           (fun n o =>
              if maskable cfg n
              then exists j,
                  k <= j < fst (snd (mask_values env tree cfg (k, v)))
                  /\ o = Some (Text.format default_format (uuid_hex12 (uuid4_bytes env j)))
                  /\ String.length (uuid_hex12 (uuid4_bytes env j)) = 12
                  /\ Forall (fun c => Text.is_hex c = true)
                       (Text.chars (uuid_hex12 (uuid4_bytes env j)))
                  /\ is_Some (entries (snd (snd (mask_values env tree cfg (k, v))))
                              !! Text.format default_format (uuid_hex12 (uuid4_bytes env j)))
              else o = text_of n) text_of).
  rewrite mask_values_texts, mask_values_state.
  eapply Forall2_impl; [apply mask_list_texts|]. cbv beta. intros n o Hno.
  destruct (maskable cfg n); [|exact Hno].
  destruct Hno as (j & Hj & -> & Hkey). exists j.
  split; [exact Hj|]. split; [reflexivity|].
  split; [apply uuid_hex12_length|]. split; [apply uid_chars_hex | exact Hkey].
Qed.

Lemma mask_values_placeholders_witness :
  uuid_format MaskingConfig_default = default_format
  /\ Forall2 (fun n n' =>
       if maskable MaskingConfig_default n
       then exists j,
           0 <= j < fst (snd (mask_values counting_env sample_tree MaskingConfig_default
                                (0, Vault_init "vault.json")))
           /\ text_of n'
              = Some (Text.format (uuid_format MaskingConfig_default)
                        (uuid_hex12 (uuid4_bytes counting_env j)))
           /\ String.length (uuid_hex12 (uuid4_bytes counting_env j)) = 12
           /\ Forall (fun c => Text.is_hex c = true)
                (Text.chars (uuid_hex12 (uuid4_bytes counting_env j)))
           /\ is_Some (entries (snd (snd (mask_values counting_env sample_tree
                                            MaskingConfig_default
                                            (0, Vault_init "vault.json"))))
                       !! Text.format (uuid_format MaskingConfig_default)
                            (uuid_hex12 (uuid4_bytes counting_env j)))
       else text_of n' = text_of n)
      (iter (getroot sample_tree))
      (iter (getroot (fst (mask_values counting_env sample_tree MaskingConfig_default
                             (0, Vault_init "vault.json"))))).
Proof.
  split; [reflexivity|].
  exact (mask_values_placeholders counting_env sample_tree MaskingConfig_default
           0 (Vault_init "vault.json") eq_refl).
Defined.

(** C9 as stated fails on both counts: the identifier of a masked value
    has twelve digits, not sixteen or more, and a configured template
    other than the default is not the one the placeholder follows. *)
Lemma masked_placeholder_twelve_digits_default_template :
  let texts cfg :=
    map text_of
      (iter (getroot (fst (mask_values counting_env sample_tree cfg
                             (0, Vault_init "vault.json"))))) in
  let custom :=
    {| value_pattern := Text.numeric_fullmatch;
       uuid_format := "ID_{uuid}";
       preserve_attributes := [] |} in
  texts MaskingConfig_default
    = [None; None; Some "VAL_000000000001"; None; Some "VAL_000000000002"]
  /\ ~ (exists uid, 16 <= String.length uid
                    /\ "VAL_000000000001"
                       = Text.format (uuid_format MaskingConfig_default) uid)
  /\ texts custom
    = [None; None; Some "VAL_000000000001"; None; Some "VAL_000000000002"]
  /\ ~ (exists uid, "VAL_000000000001" = Text.format (uuid_format custom) uid).
Proof.
  intros texts custom. split; [vm_compute; reflexivity|].
  split; [|split; [vm_compute; reflexivity|]].
  - intros (uid & Hlen & E).
    change (uuid_format MaskingConfig_default) with default_format in E.
    rewrite format_default in E.
    apply (f_equal Text.chars) in E. rewrite chars_app in E.
    apply (f_equal (@length ascii)) in E. rewrite length_app in E.
    rewrite <- (str_chars uid), str_length in Hlen.
    cbn in E. lia.
  - intros (uid & E). apply (f_equal Text.chars) in E.
    unfold Text.format, custom in E. cbn [uuid_format] in E.
    rewrite chars_str in E.
    destruct (Text.chars uid) as [|c l]; cbn in E; discriminate E.
Qed.

(** C2, as the code has it. [restore] of the placeholder returned by
    [store x] is [x], for every string and vault. After a run of the
    pipeline that returns, with the vault loaded from the file the run
    wrote: if the placeholders generated during the run are pairwise
    distinct, every masked text of the sanitized document is a placeholder
    that [restore], [rehydrate_value] and [rehydrate_xml] turn back into
    the stripped original text of its node; all other texts are as they
    were. *)
Theorem pipeline_round_trip `{Lib} env u w xml_path policy config
    output_dir tag_map sp vp w' :
  (forall v x fmt u0 now,
      restore (snd (store v x fmt u0 now)) (fst (store v x fmt u0 now)) = Some x)
  /\ (apply_gatekeeper env u w xml_path policy config output_dir tag_map
        = (inr (sp, vp), w') ->
      sp <> vp ->
      NoDup (map (placeholder_of env) (seq (draws w) (draws w' - draws w))) ->
      exists tree tree' vault,
        etree_parse (fs w) (path_str xml_path) = inr tree
        /\ fs w' !! sp = Some (XmlFile tree')
        /\ load (Vault_init vp) (fs w') = inr vault
        /\ Forall2 (fun n n' =>
                      if masking_active policy && maskable (masking config) n
                      then exists p,
                          text_of n' = Some p
                          /\ restore vault p = Some (stripped_text n)
                          /\ rehydrate_value vault p = stripped_text n
                          /\ rehydrate_xml vault p = stripped_text n
                      else text_of n' = text_of n)
             (iter (getroot tree)) (iter (getroot tree'))).
Proof.
  split; [intros; apply restore_store|].
  intros Hrun Hne Hnd.
  destruct (apply_gatekeeper_returns _ _ _ _ _ _ _ _ _ _ _ Hrun)
    as (tree & Hparse & _ & Hvp & Hdraws & Hfs).
  set (am := after_masking env w tree policy config) in *.
  exists tree.
  exists {| getroot := shadow_elem (default DEFAULT_TAG_MAP tag_map) (getroot (fst am)) |}.
  exists {| path := vp; entries := entries (snd (snd am)) |}.
  split; [exact Hparse|]. split.
  { rewrite Hfs, lookup_insert_ne by (intros E; now apply Hne).
    apply lookup_insert_eq. }
  split.
  { unfold load. cbn [path Vault_init]. rewrite Hfs, lookup_insert_eq. reflexivity. }
  cbn [getroot].
  apply (Forall2_map_r
           (fun n o =>
              if masking_active policy && maskable (masking config) n
              then exists p,
                  o = Some p
                  /\ restore {| path := vp; entries := entries (snd (snd am)) |} p
                     = Some (stripped_text n)
                  /\ rehydrate_value {| path := vp; entries := entries (snd (snd am)) |} p
                     = stripped_text n
                  /\ rehydrate_xml {| path := vp; entries := entries (snd (snd am)) |} p
                     = stripped_text n
              else o = text_of n) text_of).
  rewrite shadow_elem_texts. rewrite Hdraws in Hnd. subst am. unfold after_masking in *.
  destruct (masking_active policy); cbn [andb fst snd] in *.
  - rewrite mask_values_texts. rewrite mask_values_state in Hnd |- *.
    eapply Forall2_impl; [apply (mask_list_restores _ _ _ _ _ Hnd)|].
    cbv beta. intros n o Hno. destruct (maskable (masking config) n); [|exact Hno].
    destruct Hno as (j & _ & -> & Hres). exists (placeholder_of env j).
    assert (Hres' : forall q,
      restore {| path := q;
                 entries := entries (snd (snd (for_each (mask_node (masking config) env)
                                               (iter (getroot tree))
                                               (draws w, Vault_init (vault_path config))))) |}
        (placeholder_of env j) = Some (stripped_text n)) by (intros q; exact Hres).
    split; [reflexivity|]. split; [apply Hres'|]. split.
    + unfold rehydrate_value. now rewrite Hres'.
    + rewrite rehydrate_xml_placeholder. unfold replace_match. now rewrite Hres'.
  - clear. induction (iter (getroot tree)); constructor; auto.
Qed.

Lemma pipeline_round_trip_witness :
  let run :=
    apply_gatekeeper (H := sample_lib) counting_env 0 sample_world sample_path
      masking_policy PolicyEngineConfig_default None None in
  let sp := "data/sample_sanitized.xml" in
  let vp := "./session_vault.json" in
  run = (inr (sp, vp), snd run)
  /\ sp <> vp
  /\ NoDup (map (placeholder_of counting_env)
              (seq (draws sample_world) (draws (snd run) - draws sample_world)))
  /\ exists tree tree' vault,
       etree_parse (fs sample_world) (path_str sample_path) = inr tree
       /\ fs (snd run) !! sp = Some (XmlFile tree')
       /\ load (Vault_init vp) (fs (snd run)) = inr vault
       /\ Forall2 (fun n n' =>
                     if masking_active masking_policy
                        && maskable (masking PolicyEngineConfig_default) n
                     then exists p,
                         text_of n' = Some p
                         /\ restore vault p = Some (stripped_text n)
                         /\ rehydrate_value vault p = stripped_text n
                         /\ rehydrate_xml vault p = stripped_text n
                     else text_of n' = text_of n)
            (iter (getroot tree)) (iter (getroot tree')).
Proof.
  intros run sp vp.
  assert (H1 : run = (inr (sp, vp), snd run)) by (vm_compute; reflexivity).
  assert (H2 : sp <> vp) by discriminate.
  assert (H3 : NoDup (map (placeholder_of counting_env)
                        (seq (draws sample_world)
                           (draws (snd run) - draws sample_world)))).
  { apply (bool_decide_unpack _). vm_compute. exact I. }
  split; [exact H1|]. split; [exact H2|]. split; [exact H3|].
  exact (proj2 (pipeline_round_trip (H := sample_lib) counting_env 0 sample_world
                  sample_path masking_policy PolicyEngineConfig_default None None
                  sp vp (snd run)) H1 H2 H3).
Defined.

(** C2 as stated fails: when two masked values of one run draw the same
    UUID, the later entry replaces the earlier one and the first value is
    not recovered. *)
Lemma pipeline_round_trip_fails_on_collision :
  ~ (forall (L : Lib) env u w xml_path policy config output_dir tag_map
            sp vp w' tree tree' E,
        apply_gatekeeper env u w xml_path policy config output_dir tag_map
          = (inr (sp, vp), w') ->
        etree_parse (fs w) (path_str xml_path) = inr tree ->
        fs w' !! sp = Some (XmlFile tree') ->
        fs w' !! vp = Some (VaultJson E) ->
        Forall2 (fun n n' =>
                   maskable (masking config) n = true ->
                   exists p, text_of n' = Some p
                             /\ restore {| path := vp; entries := E |} p
                                = Some (stripped_text n))
          (iter (getroot tree)) (iter (getroot tree'))).
Proof.
  intros claim.
  pose (run :=
    apply_gatekeeper (H := sample_lib) constant_env 0 sample_world sample_path
      masking_policy PolicyEngineConfig_default None None).
  pose (e := {| masked_value := "VAL_000000000000";
                original_value := "678.90";
                created_at := "2025-01-01T00:00:00+00:00" |}).
  pose (masked :=
    elem "root" None
      [ elem "element" None [ elem "metric_alpha" (Some "VAL_000000000000") [] ];
        elem "element" None [ elem "metric_alpha" (Some "VAL_000000000000") [] ] ]).
  specialize (claim sample_lib constant_env 0%Z sample_world sample_path
                masking_policy PolicyEngineConfig_default None None
                "data/sample_sanitized.xml" "./session_vault.json" (snd run)
                sample_tree {| getroot := masked |}
                (<["VAL_000000000000" := e]> ∅)).
  assert (Hc : Forall2 (fun n n' =>
                   maskable MaskingConfig_default n = true ->
                   exists p, text_of n' = Some p
                             /\ restore {| path := "./session_vault.json";
                                           entries := <["VAL_000000000000" := e]> ∅ |} p
                                = Some (stripped_text n))
                 (iter sample_root) (iter masked)).
  { apply claim; vm_compute; reflexivity. }
  cbn [iter sample_root masked elem flat_map app] in Hc.
  inversion Hc as [|? ? ? ? _ Hc1]; subst; clear Hc.
  inversion Hc1 as [|? ? ? ? _ Hc2]; subst; clear Hc1.
  inversion Hc2 as [|? ? ? ? Hnode _]; subst; clear Hc2.
  destruct Hnode as (p & Hp & Hres); [vm_compute; reflexivity|].
  cbn in Hp. injection Hp as <-. vm_compute in Hres. discriminate Hres.
Qed.

(** ** The rule detector *)

(** An element that gets a [mask_value] rule from the first or the second
    check ends the loop body there ([continue]): its children are not
    counted. *)
Lemma detect_elem_mask_continues seen rules0 e q :
  tag_of e = Some q ->
  localname q ∉ seen ->
  existsb (fun kw => Text.contains kw (Text.lower (localname q))) _SENSITIVE_KEYWORDS = true
  \/ (stripped_text e <> "" /\ _NUMERIC_RE_match (stripped_text e) = true) ->
  detect_elem (seen, rules0) e
  = ({[localname q]} ∪ seen, rules0 ++ [mask_rule (localname q)]).
Proof.
  intros Htag Hseen Hcheck. unfold detect_elem. rewrite Htag.
  rewrite (bool_decide_eq_false_2 _ Hseen). cbn [negb].
  destruct (existsb _ _SENSITIVE_KEYWORDS) eqn:Hkw; cbn [andb]; [reflexivity|].
  destruct Hcheck as [Hk|[Hne Hnum]]; [discriminate Hk|].
  fold (stripped_text e). rewrite (bool_decide_eq_false_2 _ Hne), Hnum.
  reflexivity.
Qed.

(** C7 at failing inputs: the children [v], [v] are repeated under
    [values] and no [shuffle_siblings] rule is emitted, because the first
    check emitted [mask_value] for [values]; likewise under an element
    with a numeric text. The same children under [group] do give the
    rule. *)
Theorem detect_rules_skips_repeated_children :
  detect_rules values_doc = [mask_rule "values"]
  /\ (shuffle_rule "values" "v" ∉ detect_rules values_doc)
  /\ detect_rules numeric_parent_doc = [mask_rule "item"]
  /\ (shuffle_rule "item" "a" ∉ detect_rules numeric_parent_doc)
  /\ detect_rules group_doc = [shuffle_rule "group" "v"].
Proof.
  assert (E1 : detect_rules values_doc = [mask_rule "values"])
    by (vm_compute; reflexivity).
  assert (E2 : detect_rules numeric_parent_doc = [mask_rule "item"])
    by (vm_compute; reflexivity).
  split; [exact E1|]. split.
  { rewrite E1. intros Hin. apply list_elem_of_singleton in Hin. discriminate Hin. }
  split; [exact E2|]. split.
  { rewrite E2. intros Hin. apply list_elem_of_singleton in Hin. discriminate Hin. }
  vm_compute. reflexivity.
Qed.

(** The first [values] ends the body at its [mask_value] rule; the
    second, whose tag is already seen, reaches the child count and gets
    the [shuffle_siblings] rule. *)
Example detect_rules_second_occurrence :
  detect_rules twice_doc
  = [ shuffle_rule "root" "values"; mask_rule "values"; shuffle_rule "values" "v" ].
Proof. vm_compute. reflexivity. Qed.

Example detect_rules_sample :
  detect_rules sample_root = [ shuffle_rule "root" "element"; mask_rule "pressure" ].
Proof. vm_compute. reflexivity. Qed.

(** ** Shuffling *)

Section Shuffle.
Context `{Lib}.

Lemma swap_Permutation {A} (x : list A) i j : Permutation (swap x i j) x.
Proof.
  unfold swap. destruct (x !! i) as [xi|] eqn:Hi; [|reflexivity].
  destruct (x !! j) as [xj|] eqn:Hj; [|reflexivity].
  now apply Permutation_insert_swap.
Qed.

Lemma shuffle_from_Permutation {A} i (x : list A) g :
  Permutation (fst (shuffle_from i x g)) x.
Proof.
  revert x g. induction i as [|i IH]; intros x g; [reflexivity|].
  cbn [shuffle_from]. destruct (randbelow g (S (S i))) as [j g'].
  rewrite IH. apply swap_Permutation.
Qed.

(** Lines 95-100 on their own: the list appended back is a permutation
    of the list that was removed. *)
Lemma rng_shuffle_Permutation {A} (x : list A) g :
  Permutation x (fst (rng_shuffle x g)).
Proof. symmetry. apply shuffle_from_Permutation. Qed.

Lemma swap_map {A B} (f : A -> B) x i j : swap (map f x) i j = map f (swap x i j).
Proof.
  unfold swap.
  change (map f x) with (f <$> x). rewrite !list_lookup_fmap.
  destruct (x !! i) as [xi|]; [|reflexivity].
  destruct (x !! j) as [xj|]; [|reflexivity].
  cbn. now rewrite !list_fmap_insert.
Qed.

(** The shuffle does not look at the elements: it commutes with [map]. *)
Lemma shuffle_from_map {A B} (f : A -> B) i x g :
  shuffle_from i (map f x) g
  = (map f (fst (shuffle_from i x g)), snd (shuffle_from i x g)).
Proof.
  revert x g. induction i as [|i IH]; intros x g; [reflexivity|].
  cbn [shuffle_from]. destruct (randbelow g (S (S i))) as [j g'].
  rewrite swap_map. apply IH.
Qed.

Lemma rng_shuffle_map {A B} (f : A -> B) x g :
  rng_shuffle (map f x) g = (map f (fst (rng_shuffle x g)), snd (rng_shuffle x g)).
Proof. unfold rng_shuffle. rewrite length_map. apply shuffle_from_map. Qed.

Lemma reordered_refl e : reordered e e.
Proof.
  induction e as [tag att txt ch tl IHch] using Element_ind_children.
  apply (reordered_node tag att txt tl ch ch ch); [reflexivity|].
  induction IHch; constructor; auto.
Qed.

Lemma visit_reordered (kids : list (Element * (rng -> Element * rng))) :
  Forall (fun kid => forall g, reordered (fst kid) (fst (snd kid g))) kids ->
  forall g, Forall2 reordered (map fst kids) (fst (visit kids g)).
Proof.
  unfold visit. induction 1 as [|kid kids Hkid _ IH]; intros g; [constructor|].
  rewrite for_each_cons. cbn [fst map]. constructor; [apply Hkid | apply IH].
Qed.

(** The children of a node after the loop has passed it, before and
    after its descendants are visited: [reorder] is lines 94-100. *)
Lemma shuffle_elem_eq should tag att txt ch tl g :
  exists kids' g1 from,
    Permutation (map (fun c => (c, shuffle_elem should c)) ch) kids'
    /\ (forall q, tag = Some q ->
          should (localname q) && (2 <=? length ch)%nat = true ->
          map fst kids' = fst (rng_shuffle ch g))
    /\ ((tag = None
         \/ exists q, tag = Some q
                      /\ should (localname q) && (2 <=? length ch)%nat = false) ->
          map fst kids' = ch /\ from = 0)
    /\ shuffle_elem should (Node tag att txt ch tl) g
       = (Node tag att txt
            (map fst (take from kids') ++ fst (visit (drop from kids') g1)) tl,
          snd (visit (drop from kids') g1)).
Proof.
  cbn [shuffle_elem].
  set (kids := map (fun c => (c, shuffle_elem should c)) ch).
  assert (Hfst : map fst kids = ch).
  { unfold kids. rewrite map_map. cbn. apply map_id. }
  destruct tag as [q|].
  - destruct (should (localname q) && (2 <=? length ch)%nat) eqn:Hq.
    + destruct (rng_shuffle kids g) as [shuffled g'] eqn:Hsh.
      exists shuffled, g', (iter_resume (fst (rng_shuffle (seq 0 (length ch)) g))).
      split; [|split; [|split]].
      * replace shuffled with (fst (rng_shuffle kids g)) by now rewrite Hsh.
        apply rng_shuffle_Permutation.
      * intros _ _ _. rewrite <- Hfst. rewrite rng_shuffle_map, Hsh. reflexivity.
      * intros [Hn|(q' & [= <-] & Hq')]; [discriminate Hn | congruence].
      * now destruct (visit _ g').
    + exists kids, g, 0. split; [reflexivity|]. split; [|split].
      * intros q' [= <-] Hq'. congruence.
      * intros _. now split.
      * now destruct (visit _ g).
  - exists kids, g, 0. split; [reflexivity|]. split; [|split].
    + intros q' Hq'. discriminate Hq'.
    + intros _. now split.
    + now destruct (visit _ g).
Qed.

(** The whole loop leaves a tree that differs from the input in the
    order of siblings only. *)
Lemma shuffle_elem_reordered should e : forall g,
  reordered e (fst (shuffle_elem should e g)).
Proof.
  induction e as [tag att txt ch tl IHch] using Element_ind_children. intros g.
  destruct (shuffle_elem_eq should tag att txt ch tl g)
    as (kids' & g1 & from & Hperm & _ & _ & ->).
  cbn [fst].
  assert (Hkids : Forall (fun kid : Element * (rng -> Element * rng) =>
                            forall g, reordered (fst kid) (fst (snd kid g))) kids').
  { rewrite <- Hperm. apply Forall_map. exact IHch. }
  apply (reordered_node tag att txt tl ch (map fst kids')).
  - rewrite <- Hperm, map_map. cbn. now rewrite map_id.
  - rewrite <- (take_drop from kids') at 1. rewrite map_app.
    apply Forall2_app.
    + clear. induction (map fst (take from kids')); constructor;
        auto using reordered_refl.
    + apply visit_reordered.
      rewrite <- (take_drop from kids') in Hkids.
      now apply Forall_app in Hkids as [_ Hdrop].
Qed.

End Shuffle.

(** C3. For every element the loop of [shuffle_siblings] reaches, with
    whatever state [g] the generator is in: the children the element has
    once lines 94-100 have run ([now]) are a permutation of the children
    it had, element for element (each child is the very subtree it was:
    none added, removed or changed); they are the shuffled list when the
    element is processed and the list as it was otherwise. When the loop
    has ended the element has the same tag, attributes, text and tail,
    and its children are [now] in that order, each differing from what it
    was in the order of siblings below it only. *)
Theorem shuffle_preserves_children `{Lib} should tag att txt ch tl g :
  let e' := fst (shuffle_elem should (Node tag att txt ch tl) g) in
  let now := if should_process should tag ch then fst (rng_shuffle ch g) else ch in
  Permutation ch now
  /\ Forall2 reordered now (children_of e')
  /\ tag_of e' = tag /\ attrib_of e' = att /\ text_of e' = txt /\ tail_of e' = tl.
Proof.
  intros e' now.
  assert (Hnow : Permutation ch now).
  { unfold now. destruct (should_process should tag ch); [|reflexivity].
    apply rng_shuffle_Permutation. }
  split; [exact Hnow|].
  destruct (shuffle_elem_eq should tag att txt ch tl g)
    as (kids' & g1 & from & Hperm & Hyes & Hno & Heq).
  subst e'. rewrite Heq. cbn [fst children_of tag_of attrib_of text_of tail_of].
  split; [|repeat split].
  assert (Hkids : map fst kids' = now).
  { unfold now, should_process. destruct tag as [q|].
    - destruct (should (localname q) && (2 <=? length ch)%nat) eqn:Hq.
      + now apply (Hyes q).
      + apply Hno. right. now exists q.
    - apply Hno. now left. }
  rewrite <- Hkids. rewrite <- (take_drop from kids') at 1. rewrite map_app.
  apply Forall2_app.
  - clear. induction (map fst (take from kids')); constructor;
      auto using reordered_refl.
  - apply visit_reordered.
    assert (Hall : Forall (fun kid : Element * (rng -> Element * rng) =>
                             forall g, reordered (fst kid) (fst (snd kid g))) kids').
    { rewrite <- Hperm. apply Forall_map, Forall_forall.
      intros c _ g0. apply shuffle_elem_reordered. }
    rewrite <- (take_drop from kids') in Hall.
    now apply Forall_app in Hall as [_ Hdrop].
Qed.

(** C8. With a seed in the configuration the result of [shuffle_siblings]
    (the tree as it is left and the serialisation returned) is the same
    whatever the system's entropy is at the two calls: two runs on the
    same tree, configuration and rules return the same string. *)
Theorem shuffle_siblings_deterministic `{Lib} tree shuffling_config rules s
    urandom1 urandom2 :
  seed shuffling_config = Some s ->
  shuffle_siblings urandom1 tree shuffling_config rules
  = shuffle_siblings urandom2 tree shuffling_config rules.
Proof.
  intros Hseed. unfold shuffle_siblings, Random. rewrite Hseed. reflexivity.
Qed.

Lemma shuffle_siblings_deterministic_witness :
  seed seeded_config = Some 42%Z
  /\ shuffle_siblings (H := sample_lib) 1 sample_tree seeded_config
       (Some [shuffle_rule "root" "element"])
     = shuffle_siblings (H := sample_lib) 2 sample_tree seeded_config
         (Some [shuffle_rule "root" "element"]).
Proof.
  split; [reflexivity|].
  exact (shuffle_siblings_deterministic (H := sample_lib) sample_tree seeded_config
           (Some [shuffle_rule "root" "element"]) 42%Z 1%Z 2%Z eq_refl).
Defined.

(** The seeded run on the sample: the two [element]s change places. *)
Example shuffle_siblings_seeded_sample :
  snd (shuffle_siblings (H := sample_lib) 0 sample_tree seeded_config
         (Some [shuffle_rule "root" "element"]))
  = ("<root><element><pressure>678.90</pressure></element>"
     ++ "<element><pressure>123.45</pressure></element></root>")%string.
Proof. vm_compute. reflexivity. Qed.

(** Without a seed the result follows the entropy of the call. *)
Example shuffle_siblings_unseeded_sample :
  snd (shuffle_siblings (H := sample_lib) 0 sample_tree unseeded_config
         (Some [shuffle_rule "root" "element"]))
  <> snd (shuffle_siblings (H := sample_lib) 1 sample_tree unseeded_config
            (Some [shuffle_rule "root" "element"])).
Proof. vm_compute. discriminate. Qed.

(** Without rules the fall-back list [target_tags] selects the parents:
    nothing on the sample is an [element] with two children. *)
Example shuffle_siblings_target_tags_sample :
  fst (shuffle_siblings (H := sample_lib) 0 sample_tree seeded_config None)
  = sample_tree.
Proof. vm_compute. reflexivity. Qed.

(** A child that is itself a shuffled parent is moved as it is when its
    parent is processed, and reordered inside when the loop reaches it. *)
Example shuffle_siblings_nested_sample :
  map (fun s => snd (shuffle_siblings (H := sample_lib) 0 {| getroot := nested_doc |}
                       (seeded s) (Some [shuffle_rule "a" "a"])))
    [0; 1]%Z
  = [ "<a><b></b><a><x></x><y></y></a></a>";
      "<a><a><y></y><x></x></a><b></b></a>" ].
Proof. vm_compute. reflexivity. Qed.

(** ** Rehydrating twice *)

Section ScanTwice.
Variable repl : string -> string.
Hypothesis repl_inert : forall s, repl s = s \/ inert (repl s) = true.

Let scan := re_sub repl 0.

Lemma token_at_head c l tok : token_at (c :: l) = Some tok -> c = "V"%char.
Proof.
  intros Htok. apply token_at_Some in Htok as (a & run & rest & -> & E & _).
  now inversion E.
Qed.

Lemma token_at_not_V c l : c <> "V"%char -> token_at (c :: l) = None.
Proof.
  intros Hc. destruct (token_at (c :: l)) as [tok|] eqn:Htok; [|reflexivity].
  now apply token_at_head in Htok.
Qed.

Lemma token_at_alnum a t : Text.is_alnum a = true -> token_at (VAL_ ++ a :: t) <> None.
Proof.
  intros Ha. unfold token_at.
  assert (E1 : Text.starts_with VAL_ (VAL_ ++ a :: t) = true) by reflexivity.
  assert (E2 : drop 4 (VAL_ ++ a :: t) = a :: t) by reflexivity.
  rewrite E1, E2. cbn [Text.span]. rewrite Ha.
  destruct (Text.span Text.is_alnum t). discriminate.
Qed.

Lemma inert_chars o :
  inert o = true ->
  exists c l, Text.chars o = c :: l
              /\ Forall (fun x => x ∉ VAL_) (c :: l).
Proof.
  unfold inert. destruct (Text.chars o) as [|c l]; [discriminate|].
  intros Hall. exists c, l. split; [reflexivity|].
  apply Forall_forall. intros x Hx.
  rewrite forallb_forall in Hall. specialize (Hall x).
  rewrite <- list_elem_of_In in Hall. specialize (Hall Hx).
  apply negb_true_iff, bool_decide_eq_false in Hall. exact Hall.
Qed.

(** No match begins inside a replacement that is inert. *)
Lemma scan_inert_prefix o t :
  Forall (fun x => x ∉ VAL_) o -> scan (o ++ t) = o ++ scan t.
Proof.
  unfold scan. induction 1 as [|c o Hc _ IH]; [reflexivity|].
  rewrite <- app_comm_cons, re_sub_char, IH; [reflexivity|].
  apply token_at_not_V. intros ->. apply Hc. now left.
Qed.

(** How the result of a scan begins: with the first character of the
    input when no match begins there, else with [V] or with a character
    that is none of [V], [A], [L], [_]. *)
Lemma scan_head l y t :
  scan l = y :: t ->
  y ∈ VAL_ -> y <> "V"%char ->
  exists l1, l = y :: l1 /\ scan l1 = t.
Proof.
  unfold scan. intros Hscan Hy HyV. destruct l as [|x l1]; [discriminate Hscan|].
  destruct (token_at (x :: l1)) as [tok|] eqn:Htok.
  - exfalso. pose proof Htok as Hshape.
    apply token_at_Some in Hshape as (a & run & rest & Etok & El & _).
    rewrite El in Hscan, Htok. rewrite re_sub_token in Hscan by exact Htok.
    destruct (repl_inert (Text.str tok)) as [Hid|Hin].
    + rewrite Hid, chars_str, Etok in Hscan. inversion Hscan. congruence.
    + apply inert_chars in Hin as (c & o & Eo & Ho). rewrite Eo in Hscan.
      inversion Hscan; subst. now inversion Ho.
  - rewrite re_sub_char in Hscan by exact Htok. inversion Hscan; subst.
    now exists l1.
Qed.

(** Where the first scan found no match, the second finds none. *)
Lemma scan_keeps_no_match c l :
  token_at (c :: l) = None -> token_at (c :: scan l) = None.
Proof.
  intros Hnone. destruct (token_at (c :: scan l)) as [tok|] eqn:Htok; [|reflexivity].
  exfalso. apply token_at_Some in Htok as (a & run & rest & -> & E & Halnum & _).
  cbn in E. injection E as -> E.
  apply scan_head in E as (l2 & -> & E);
    [|cbn; set_solver | discriminate].
  apply scan_head in E as (l3 & -> & E);
    [|cbn; set_solver | discriminate].
  apply scan_head in E as (l4 & -> & E);
    [|cbn; set_solver | discriminate].
  apply Forall_inv in Halnum.
  destruct l4 as [|x l5]; [discriminate E|].
  destruct (Text.is_alnum x) eqn:Hx.
  - now apply (token_at_alnum x l5 Hx).
  - unfold scan in E. rewrite re_sub_char in E.
    + injection E as <- _. congruence.
    + apply token_at_not_V. intros ->. discriminate Hx.
Qed.

(** A match that stays as it is, is found again with the same extent. *)
Lemma scan_keeps_token tok rest :
  token_at (tok ++ rest) = Some tok -> token_at (tok ++ scan rest) = Some tok.
Proof.
  intros Htok. apply token_at_Some in Htok as (a & run & rest' & -> & E & Halnum & Hstop).
  apply app_inv_head in E as <-.
  rewrite <- app_assoc. apply token_at_intro; [exact Halnum|].
  destruct rest as [|x rest]; [exact I|].
  unfold scan. rewrite re_sub_char; [exact Hstop|].
  apply token_at_not_V. intros ->. discriminate Hstop.
Qed.

Lemma scan_cases (P : list ascii -> Prop) :
  P [] ->
  (forall tok rest, token_at (tok ++ rest) = Some tok -> P rest -> P (tok ++ rest)) ->
  (forall c l, token_at (c :: l) = None -> P l -> P (c :: l)) ->
  forall l, P l.
Proof.
  intros Hnil Htok Hchar l.
  induction l as [l IH] using (induction_ltof1 _ (@length ascii)). unfold ltof in IH.
  destruct l as [|c l]; [exact Hnil|].
  destruct (token_at (c :: l)) as [tok|] eqn:E.
  - pose proof E as Hshape.
    apply token_at_Some in Hshape as (a & run & rest & Etok & El & _).
    rewrite El in E |- *. apply Htok; [exact E|]. apply IH.
    rewrite El, length_app, Etok. cbn. lia.
  - apply Hchar; [exact E|]. apply IH. cbn. lia.
Qed.

Lemma scan_idempotent l : scan (scan l) = scan l.
Proof.
  induction l as [|tok rest Htok IH|c l Hnone IH] using scan_cases.
  - reflexivity.
  - unfold scan at 2 3. rewrite re_sub_token by exact Htok. fold scan.
    destruct (repl_inert (Text.str tok)) as [Hid|Hin].
    + rewrite Hid, chars_str. unfold scan at 1.
      rewrite re_sub_token by (now apply scan_keeps_token).
      fold scan. now rewrite Hid, chars_str, IH.
    + apply inert_chars in Hin as (c & o & -> & Ho).
      now rewrite scan_inert_prefix, IH.
  - unfold scan at 2 3. rewrite re_sub_char by exact Hnone. fold scan.
    unfold scan at 1. rewrite re_sub_char by (now apply scan_keeps_no_match).
    fold scan. now rewrite IH.
Qed.

End ScanTwice.

Lemma pydata_ind_items (P : pydata -> Prop) :
  (forall items, Forall (fun kv => P (snd kv)) items -> P (PDict items)) ->
  (forall items, Forall P items -> P (PList items)) ->
  (forall s, P (PStr s)) ->
  (forall x, P (PScalar x)) ->
  forall data, P data.
Proof.
  intros Hdict Hlist Hstr Hscalar. fix IH 1. intros [items|items|s|x].
  - apply Hdict. induction items as [|[k d] items IHitems]; constructor;
      [apply IH | apply IHitems].
  - apply Hlist. induction items as [|d items IHitems]; constructor;
      [apply IH | apply IHitems].
  - apply Hstr.
  - apply Hscalar.
Qed.

Lemma replace_match_inert v :
  map_Forall (fun _ e => inert (original_value e) = true) (entries v) ->
  forall s, replace_match v s = s \/ inert (replace_match v s) = true.
Proof.
  intros Hv s. unfold replace_match, restore.
  destruct (entries v !! s) as [e|] eqn:He; [|now left].
  right. exact (Hv s e He).
Qed.

Lemma rehydrate_value_twice v :
  map_Forall (fun _ e => rehydrate_value v (original_value e) = original_value e)
    (entries v) ->
  forall s, rehydrate_value v (rehydrate_value v s) = rehydrate_value v s.
Proof.
  intros Hv s. unfold rehydrate_value at 2 3, restore.
  destruct (entries v !! s) as [e|] eqn:He.
  - exact (Hv s e He).
  - unfold rehydrate_value, restore. now rewrite He.
Qed.

Lemma rehydrate_xml_twice v :
  map_Forall (fun _ e => inert (original_value e) = true) (entries v) ->
  forall s, rehydrate_xml v (rehydrate_xml v s) = rehydrate_xml v s.
Proof.
  intros Hv s. unfold rehydrate_xml. rewrite chars_str.
  now rewrite (scan_idempotent (replace_match v) (replace_match_inert v Hv)).
Qed.

Lemma rehydrate_dict_twice v :
  map_Forall (fun _ e => rehydrate_value v (original_value e) = original_value e)
    (entries v) ->
  forall data, rehydrate_dict v (rehydrate_dict v data) = rehydrate_dict v data.
Proof.
  intros Hv data.
  induction data as [items IH|items IH|s|x] using pydata_ind_items;
    cbn [rehydrate_dict].
  - f_equal. rewrite map_map. cbn [fst snd].
    induction IH as [|[k d] items Hd _ IHitems]; [reflexivity|].
    cbn [map fst snd] in *. now rewrite Hd, IHitems.
  - f_equal. rewrite map_map.
    induction IH as [|d items Hd _ IHitems]; [reflexivity|].
    cbn [map]. now rewrite Hd, IHitems.
  - now rewrite rehydrate_value_twice.
  - reflexivity.
Qed.

(** C6, as the code has it. [rehydrate_xml] applied twice gives what it
    gives once for every text, on a vault none of whose original values
    is empty or contains a character of the prefix [VAL_];
    [rehydrate_dict] applied twice gives what it gives once for every
    nested value, on a vault none of whose original values is changed by
    [rehydrate_value] (none is itself a placeholder of another value). *)
Theorem rehydrate_twice v :
  (map_Forall (fun _ e => inert (original_value e) = true) (entries v) ->
   forall s, rehydrate_xml v (rehydrate_xml v s) = rehydrate_xml v s)
  /\ (map_Forall (fun _ e => rehydrate_value v (original_value e) = original_value e)
        (entries v) ->
      forall data, rehydrate_dict v (rehydrate_dict v data) = rehydrate_dict v data).
Proof. split; [apply rehydrate_xml_twice | apply rehydrate_dict_twice]. Qed.

Lemma rehydrate_twice_witness :
  let s := "<a>VAL_000000000001</a><b>VAL_unknown</b>" in
  let data := PDict [("k", PList [PStr "VAL_000000000002"; PScalar (SInt 3)])] in
  (map_Forall (fun _ e => inert (original_value e) = true) (entries sample_vault)
   /\ rehydrate_xml sample_vault (rehydrate_xml sample_vault s)
      = rehydrate_xml sample_vault s)
  /\ (map_Forall (fun _ e => rehydrate_value sample_vault (original_value e)
                             = original_value e) (entries sample_vault)
      /\ rehydrate_dict sample_vault (rehydrate_dict sample_vault data)
         = rehydrate_dict sample_vault data).
Proof.
  intros s data.
  assert (H1 : map_Forall (fun _ e => inert (original_value e) = true)
                 (entries sample_vault)).
  { apply (bool_decide_unpack _). vm_compute. exact I. }
  assert (H2 : map_Forall (fun _ e => rehydrate_value sample_vault (original_value e)
                                      = original_value e) (entries sample_vault)).
  { apply (bool_decide_unpack _). vm_compute. exact I. }
  split; (split; [assumption|]).
  - exact (proj1 (rehydrate_twice sample_vault) H1 s).
  - exact (proj2 (rehydrate_twice sample_vault) H2 data).
Defined.

Example rehydrate_xml_sample :
  rehydrate_xml sample_vault "<a>VAL_000000000001</a><b>VAL_unknown</b>"
  = "<a>123.45</a><b>VAL_unknown</b>".
Proof. vm_compute. reflexivity. Qed.

(** C6 as stated fails: on a vault in which an original value is the
    placeholder of another entry, the second pass replaces what the first
    pass put in. *)
Lemma rehydrate_twice_fails_on_chained_vault :
  ~ (forall v s, rehydrate_xml v (rehydrate_xml v s) = rehydrate_xml v s)
  /\ ~ (forall v data,
          rehydrate_dict v (rehydrate_dict v data) = rehydrate_dict v data).
Proof.
  split; intros claim.
  - specialize (claim chained_vault "<a>VAL_000000000001</a>").
    vm_compute in claim. discriminate claim.
  - specialize (claim chained_vault (PList [PStr "VAL_000000000001"])).
    vm_compute in claim. discriminate claim.
Qed.

(** ** The vaults the pipeline produces *)

Example uuid4_hex_sample :
  Text.str (Text.hex_be 32 (uuid4_int 0)) = "00000000000040008000000000000000".
Proof. vm_compute. reflexivity. Qed.

Example numeric_fullmatch_samples :
  map Text.numeric_fullmatch ["123.45"; "-5."; "007"; "5.5.5"; "1e5"; ""; "-"; ".5"; "12 kPa"]
  = [true; true; true; false; false; false; false; false; false].
Proof. vm_compute. reflexivity. Qed.

Lemma numeric_char_not_prefix c :
  Text.is_digit c = true \/ c = "-"%char \/ c = "."%char ->
  bool_decide (c ∈ VAL_) = false.
Proof.
  intros [Hd|[->| ->]]; [|reflexivity..].
  destruct c as [[] [] [] [] [] [] [] []]; vm_compute in Hd |- *;
    first [reflexivity | discriminate Hd].
Qed.

(** A text of the grammar [-?\d+\.?\d*] is made of a sign, digits and a
    dot, and is not empty. *)
Lemma numeric_chars_shape l :
  Text.numeric_chars l = true ->
  l <> []
  /\ Forall (fun c => Text.is_digit c = true \/ c = "-"%char \/ c = "."%char) l.
Proof.
  unfold Text.numeric_chars.
  set (body := match l with
               | c :: l' => if decide (c = "-"%char) then l' else l
               | [] => l
               end).
  assert (Hbody : Forall (fun c => Text.is_digit c = true \/ c = "-"%char \/ c = "."%char) body ->
                  body <> [] ->
                  l <> [] /\ Forall (fun c => Text.is_digit c = true \/ c = "-"%char \/ c = "."%char) l).
  { subst body. destruct l as [|c l']; [tauto|].
    destruct (decide (c = "-"%char)) as [->|_]; [|tauto].
    intros Hall _. split; [discriminate|]. constructor; [tauto | exact Hall]. }
  pose proof (span_app Text.is_digit body) as Happ.
  pose proof (span_prefix Text.is_digit body) as Hint.
  destruct (Text.span Text.is_digit body) as [int_part rest]. cbn [fst snd] in *.
  destruct int_part as [|d int_part]; [discriminate|].
  intros Hrest. apply Hbody; [|rewrite <- Happ; discriminate].
  rewrite <- Happ. apply Forall_app. split.
  - eapply Forall_impl; [exact Hint|]. cbv beta. tauto.
  - destruct rest as [|c frac]; [constructor|].
    destruct (decide (c = "."%char)) as [->|_]; [|discriminate].
    constructor; [tauto|].
    pose proof (span_app Text.is_digit frac) as Hfrac.
    pose proof (span_prefix Text.is_digit frac) as Hdigits.
    destruct (Text.span Text.is_digit frac) as [digits tl]. cbn [fst snd] in *.
    destruct tl; [|discriminate]. rewrite app_nil_r in Hfrac. subst digits.
    eapply Forall_impl; [exact Hdigits|]. cbv beta. tauto.
Qed.

Lemma numeric_inert s : Text.numeric_fullmatch s = true -> inert s = true.
Proof.
  unfold Text.numeric_fullmatch, inert. intros Hnum.
  apply numeric_chars_shape in Hnum as [Hne Hall].
  destruct (Text.chars s) as [|c l]; [congruence|].
  apply forallb_forall. intros x Hx. rewrite Forall_forall in Hall.
  apply list_elem_of_In in Hx. rewrite (numeric_char_not_prefix x (Hall x Hx)).
  reflexivity.
Qed.

(** A property of every text that the loop masks holds of every original
    value of the vault afterwards, if it held before. *)
Lemma mask_list_originals cfg env (P : string -> Prop) l : forall k v,
  (forall n, n ∈ l -> maskable cfg n = true -> P (stripped_text n)) ->
  map_Forall (fun _ e => P (original_value e)) (entries v) ->
  map_Forall (fun _ e => P (original_value e))
    (entries (snd (snd (for_each (mask_node cfg env) l (k, v))))).
Proof.
  induction l as [|n l IH]; intros k v Hl Hv; [exact Hv|].
  rewrite for_each_cons. cbn [snd].
  destruct (maskable cfg n) eqn:Hm.
  - rewrite mask_node_masks by exact Hm. cbn [snd].
    apply IH; [intros m Hin; apply Hl; now right|].
    cbn [store snd entries]. apply map_Forall_insert_2; [|exact Hv].
    cbn [original_value]. apply Hl; [now left | exact Hm].
  - rewrite mask_node_skips by exact Hm. cbn [snd].
    apply IH; [intros m Hin; apply Hl; now right | exact Hv].
Qed.

Lemma maskable_pattern cfg n :
  maskable cfg n = true -> value_pattern cfg (stripped_text n) = true.
Proof.
  unfold maskable, stripped_text. destruct (tag_of n); [|discriminate].
  intros Hm. now apply andb_true_iff in Hm as [_ Hm].
Qed.

Lemma inert_not_placeholder env j o : inert o = true -> o <> placeholder_of env j.
Proof.
  intros Ho ->. apply inert_chars in Ho as (c & l & E & Hall).
  assert (Hhead : exists t, Text.chars (placeholder_of env j) = "V"%char :: t).
  { rewrite placeholder_chars. eexists. reflexivity. }
  destruct Hhead as [t Ht]. rewrite Ht in E. injection E as <- _.
  apply Forall_inv in Hall. apply Hall. now left.
Qed.

(** With the numeric grammar as [value_pattern], the vault file a
    returning run writes is one of those vaults: rehydration with it, of
    texts and of nested values, gives the same applied twice as applied
    once. *)
Lemma pipeline_vault_rehydrate_twice `{Lib} env u w xml_path policy config
    output_dir tag_map sp vp w' :
  value_pattern (masking config) = Text.numeric_fullmatch ->
  apply_gatekeeper env u w xml_path policy config output_dir tag_map
    = (inr (sp, vp), w') ->
  exists vault,
    load (Vault_init vp) (fs w') = inr vault
    /\ (forall s, rehydrate_xml vault (rehydrate_xml vault s) = rehydrate_xml vault s)
    /\ (forall data,
          rehydrate_dict vault (rehydrate_dict vault data) = rehydrate_dict vault data).
Proof.
  intros Hpat Hrun.
  destruct (apply_gatekeeper_returns _ _ _ _ _ _ _ _ _ _ _ Hrun)
    as (tree & _ & _ & Hvp & _ & Hfs).
  set (am := after_masking env w tree policy config) in *.
  exists {| path := vp; entries := entries (snd (snd am)) |}.
  assert (Hinert : map_Forall (fun _ e => inert (original_value e) = true)
                     (entries (snd (snd am)))).
  { subst am. unfold after_masking. destruct (masking_active policy).
    - rewrite mask_values_state.
      apply (mask_list_originals _ _ (fun o => inert o = true)).
      + intros n _ Hm. apply numeric_inert. rewrite <- Hpat.
        now apply maskable_pattern.
      + cbn. apply map_Forall_empty.
    - cbn. apply map_Forall_empty. }
  split.
  { unfold load. cbn [path Vault_init]. rewrite Hfs, lookup_insert_eq. reflexivity. }
  split.
  - apply rehydrate_xml_twice. exact Hinert.
  - apply rehydrate_dict_twice. intros p e Hp. cbn [entries] in Hp.
    unfold rehydrate_value, restore. cbn [entries].
    destruct (entries (snd (snd am)) !! original_value e) as [e'|] eqn:He';
      [|reflexivity].
    exfalso. apply after_masking_keys in He' as (j & _ & Hkey & _).
    exact (inert_not_placeholder env j _ (Hinert p e Hp) Hkey).
Qed.

(* ===================================================================== *)
(** * Further properties *)
(* ===================================================================== *)

(** ** The vault as a container *)

(** X1. After [store] the returned placeholder is in the vault; the vault
    has one entry more when the placeholder was not a key, and as many as
    before when it was; membership of every other key is as before. *)
Theorem store_len_contains v x fmt u now :
  let p := fst (store v x fmt u now) in
  let v' := snd (store v x fmt u now) in
  Vault_contains v' p = true
  /\ Vault_len v' = (if Vault_contains v p then Vault_len v else S (Vault_len v))
  /\ (forall k, k <> p -> Vault_contains v' k = Vault_contains v k).
Proof.
  intros p v'. unfold Vault_contains, Vault_len. split; [|split].
  - apply bool_decide_eq_true. subst p v'. rewrite store_lookup_eq. eauto.
  - subst v'. cbn [store snd entries]. rewrite map_size_insert.
    change (Text.format fmt (uuid_hex12 u)) with p.
    destruct (entries v !! p) as [e|] eqn:Hp; cbn [id].
    + rewrite bool_decide_eq_true_2 by eauto. reflexivity.
    + rewrite bool_decide_eq_false_2; [reflexivity|]. intros [e He]. discriminate He.
  - intros k Hk. subst p v'. now rewrite store_lookup_ne.
Qed.

Lemma store_len_contains_witness :
  "VAL_other" <> fst (store sample_vault "2.5" default_format 7 "t1")
  /\ Vault_contains (snd (store sample_vault "2.5" default_format 7 "t1")) "VAL_other"
     = Vault_contains sample_vault "VAL_other".
Proof.
  assert (Hne : "VAL_other" <> fst (store sample_vault "2.5" default_format 7 "t1")).
  { vm_compute. discriminate. }
  split; [exact Hne|].
  exact (proj2 (proj2 (store_len_contains sample_vault "2.5" default_format 7 "t1"))
           "VAL_other" Hne).
Defined.

(** X2. [save] followed by [load] on a vault of the same path gives that
    vault the saved entries, whatever it held and whatever the file held
    before: the entries are replaced, not merged. The file at every other
    path is as it was. *)
Theorem save_load_replaces v v0 files :
  path v0 = path v ->
  load v0 (snd (save v files)) = inr {| path := path v0; entries := entries v |}
  /\ fst (save v files) = path v
  /\ (forall p, p <> path v -> snd (save v files) !! p = files !! p).
Proof.
  intros Hpath. unfold load, save. cbn [fst snd]. rewrite Hpath, lookup_insert_eq.
  split; [reflexivity|]. split; [reflexivity|].
  intros p Hp. apply lookup_insert_ne. congruence.
Qed.

Lemma save_load_replaces_witness :
  path chained_vault = path sample_vault
  /\ load chained_vault (snd (save sample_vault ∅))
     = inr {| path := path chained_vault; entries := entries sample_vault |}.
Proof.
  split; [reflexivity|].
  exact (proj1 (save_load_replaces sample_vault chained_vault ∅ eq_refl)).
Defined.

(** ** Rehydration of texts *)

Lemma token_self tok rest :
  token_at (tok ++ rest) = Some tok -> token_at tok = Some tok.
Proof.
  intros Htok. apply token_at_Some in Htok as (c & run & rest' & -> & _ & Halnum & _).
  pose proof (token_at_intro c run [] Halnum I) as H0.
  now rewrite app_nil_r in H0.
Qed.

Lemma re_sub_unchanged repl l :
  (forall tok, token_at tok = Some tok -> repl (Text.str tok) = Text.str tok) ->
  re_sub repl 0 l = l.
Proof.
  intros Hrepl. induction l as [|tok rest Htok IH|c l Hnone IH] using scan_cases.
  - reflexivity.
  - rewrite re_sub_token by exact Htok.
    now rewrite (Hrepl tok (token_self tok rest Htok)), chars_str, IH.
  - rewrite re_sub_char by exact Hnone. now rewrite IH.
Qed.

(** X3. [rehydrate_xml] replaces nothing but keys of the form [VAL_]
    followed by letters and digits: on a vault none of whose keys has
    that form (an empty vault, or one filled through another template)
    every text comes back unchanged. *)
Theorem rehydrate_xml_other_keys v :
  map_Forall (fun k _ => is_token k = false) (entries v) ->
  forall s, rehydrate_xml v s = s.
Proof.
  intros Hv s. unfold rehydrate_xml.
  rewrite re_sub_unchanged; [apply str_chars|].
  intros tok Htok. unfold replace_match, restore.
  destruct (entries v !! Text.str tok) as [e|] eqn:He; [|reflexivity].
  specialize (Hv _ _ He). cbv beta in Hv.
  unfold is_token in Hv. rewrite chars_str in Hv.
  now rewrite bool_decide_eq_true_2 in Hv.
Qed.

Lemma rehydrate_xml_other_keys_witness :
  map_Forall (fun k _ => is_token k = false) (entries custom_vault)
  /\ rehydrate_xml custom_vault "<a>ID_000000000001</a><b>VAL_000000000001</b>"
     = "<a>ID_000000000001</a><b>VAL_000000000001</b>".
Proof.
  assert (H1 : map_Forall (fun k _ => is_token k = false) (entries custom_vault)).
  { apply (bool_decide_unpack _). vm_compute. exact I. }
  split; [exact H1|].
  exact (rehydrate_xml_other_keys custom_vault H1 _).
Defined.

Lemma span_delim p l c r :
  p c = false ->
  Text.span p (l ++ c :: r) = (fst (Text.span p l), snd (Text.span p l) ++ c :: r).
Proof.
  intros Hc. induction l as [|a l IH].
  - cbn [app Text.span fst snd]. now rewrite Hc.
  - rewrite <- app_comm_cons. cbn [Text.span]. destruct (p a); [|reflexivity].
    rewrite IH. now destruct (Text.span p l).
Qed.

Lemma not_alnum_not_prefix c :
  Text.is_alnum c = false -> c <> "_"%char -> c ∉ VAL_.
Proof.
  intros Hc Hu Hin. cbn in Hin.
  repeat (apply elem_of_cons in Hin as [->|Hin]; [first [discriminate Hc | congruence]|]).
  inversion Hin.
Qed.

Lemma starts_with_delim p l c r :
  c ∉ p -> Text.starts_with p (l ++ c :: r) = Text.starts_with p l.
Proof.
  revert l. induction p as [|a p IH]; intros l Hc; [reflexivity|].
  destruct l as [|b l]; cbn [app Text.starts_with].
  - destruct (decide (a = c)) as [->|_]; [|reflexivity].
    exfalso. apply Hc. now left.
  - destruct (decide (a = b)); [|reflexivity]. apply IH.
    intros Hin. apply Hc. now right.
Qed.

Lemma starts_with_drop p l x :
  Text.starts_with p l = true ->
  drop (length p) (l ++ x) = drop (length p) l ++ x.
Proof.
  revert l. induction p as [|a p IH]; intros l Hp; [reflexivity|].
  destruct l as [|b l]; [discriminate Hp|]. cbn [Text.starts_with] in Hp.
  destruct (decide (a = b)); [|discriminate Hp]. cbn [length drop app]. now apply IH.
Qed.

(** A character that is no letter, digit or underscore ends every match:
    what follows it has no part in the matches before it. *)
Lemma token_at_delim l c r :
  Text.is_alnum c = false -> c <> "_"%char ->
  token_at (l ++ c :: r) = token_at l.
Proof.
  intros Hc Hu. pose proof (not_alnum_not_prefix c Hc Hu) as Hnot.
  unfold token_at. rewrite starts_with_delim by exact Hnot.
  destruct (Text.starts_with VAL_ l) eqn:Hpre; [|reflexivity].
  change 4 with (length VAL_). rewrite starts_with_drop by exact Hpre.
  rewrite span_delim by exact Hc. reflexivity.
Qed.

Lemma re_sub_delim repl l c r :
  Text.is_alnum c = false -> c <> "_"%char ->
  re_sub repl 0 (l ++ c :: r) = re_sub repl 0 l ++ c :: re_sub repl 0 r.
Proof.
  intros Hc Hu. induction l as [|tok rest Htok IH|a l Hnone IH] using scan_cases.
  - cbn [app]. rewrite re_sub_char; [reflexivity|].
    apply token_at_not_V. intros ->. discriminate Hc.
  - rewrite <- app_assoc.
    rewrite re_sub_token
      by (rewrite app_assoc, token_at_delim by assumption; exact Htok).
    rewrite IH, re_sub_token by exact Htok. now rewrite <- app_assoc.
  - rewrite <- app_comm_cons.
    rewrite re_sub_char
      by (rewrite app_comm_cons, token_at_delim by assumption; exact Hnone).
    rewrite IH, re_sub_char by exact Hnone. reflexivity.
Qed.

(** X4. [rehydrate_xml] works piece by piece between delimiters: at a
    character that is no letter, digit or underscore the text splits, the
    character is kept, and the two sides are rehydrated independently. *)
Theorem rehydrate_xml_splits_at_delimiter v s1 c s2 :
  Text.is_alnum c = false -> c <> "_"%char ->
  rehydrate_xml v (s1 ++ String c s2)
  = (rehydrate_xml v s1 ++ String c (rehydrate_xml v s2))%string.
Proof.
  intros Hc Hu. unfold rehydrate_xml.
  rewrite chars_app. change (Text.chars (String c s2)) with (c :: Text.chars s2).
  rewrite re_sub_delim by assumption. rewrite str_app. reflexivity.
Qed.

Lemma rehydrate_xml_splits_at_delimiter_witness :
  Text.is_alnum "<" = false /\ "<"%char <> "_"%char
  /\ rehydrate_xml sample_vault ("VAL_000000000001" ++ String "<" "/a>VAL_000000000002")
     = (rehydrate_xml sample_vault "VAL_000000000001"
        ++ String "<" (rehydrate_xml sample_vault "/a>VAL_000000000002"))%string.
Proof.
  assert (H1 : Text.is_alnum "<" = false) by reflexivity.
  assert (H2 : "<"%char <> "_"%char) by discriminate.
  split; [exact H1|]. split; [exact H2|].
  exact (rehydrate_xml_splits_at_delimiter sample_vault _ _ _ H1 H2).
Defined.

(** X5. A match is as long as it can be: a key followed directly by one
    more letter or digit is not looked up; the longer text is, and when
    that is no key the text is left as it is. *)
Theorem rehydrate_xml_longest_match v p c :
  is_token p = true ->
  Text.is_alnum c = true ->
  restore v (p ++ String c "") = None ->
  rehydrate_xml v (p ++ String c "") = (p ++ String c "")%string.
Proof.
  intros Hp Hc Hnone. unfold is_token in Hp. apply bool_decide_eq_true in Hp.
  apply token_at_Some in Hp as (a & run & rest & Ep & Erest & Halnum & _).
  rewrite Ep in Erest.
  assert (rest = []) as -> by (apply (app_inv_head (VAL_ ++ a :: run)); now rewrite app_nil_r).
  assert (Hlong : token_at (Text.chars (p ++ String c "")) = Some (Text.chars (p ++ String c ""))).
  { rewrite chars_app, Ep.
    change (Text.chars (String c "")) with [c].
    rewrite <- app_assoc. change ((a :: run) ++ [c]) with (a :: (run ++ [c])).
    pose proof (token_at_intro a (run ++ [c]) []) as Hi.
    rewrite app_nil_r in Hi. apply Hi; [|exact I].
    rewrite app_comm_cons. apply Forall_app. split; [exact Halnum|].
    constructor; [exact Hc | constructor]. }
  unfold rehydrate_xml.
  rewrite <- (app_nil_r (Text.chars (p ++ String c ""))) at 1.
  rewrite re_sub_token by (now rewrite app_nil_r).
  cbn [re_sub]. rewrite app_nil_r, str_chars, str_chars.
  unfold replace_match. now rewrite Hnone.
Qed.

Lemma rehydrate_xml_longest_match_witness :
  is_token "VAL_000000000001" = true
  /\ Text.is_alnum "0" = true
  /\ restore sample_vault ("VAL_000000000001" ++ String "0" "") = None
  /\ rehydrate_xml sample_vault ("VAL_000000000001" ++ String "0" "")
     = ("VAL_000000000001" ++ String "0" "")%string.
Proof.
  assert (H1 : is_token "VAL_000000000001" = true) by (vm_compute; reflexivity).
  assert (H2 : Text.is_alnum "0" = true) by reflexivity.
  assert (H3 : restore sample_vault ("VAL_000000000001" ++ String "0" "") = None)
    by (vm_compute; reflexivity).
  split; [exact H1|]. split; [exact H2|]. split; [exact H3|].
  exact (rehydrate_xml_longest_match sample_vault _ _ H1 H2 H3).
Defined.

(** ** Rehydration of nested values *)

(** X6. [rehydrate_dict] changes string leaves only: the keys of every
    mapping (also keys that are placeholders), the length and order of
    every sequence and every scalar that is no string are as in the
    input. *)
Theorem rehydrate_dict_shape v data : shape (rehydrate_dict v data) = shape data.
Proof.
  induction data as [items IH|items IH|s|x] using pydata_ind_items;
    cbn [rehydrate_dict shape]; [| |reflexivity..].
  - f_equal. rewrite map_map. cbn [fst snd].
    induction IH as [|[k d] items Hd _ IHitems]; [reflexivity|].
    cbn [map fst snd] in *. now rewrite Hd, IHitems.
  - f_equal. rewrite map_map.
    induction IH as [|d items Hd _ IHitems]; [reflexivity|].
    cbn [map]. now rewrite Hd, IHitems.
Qed.

(** ** What masking keeps and what it leaves behind *)

Lemma for_each_mask_erase cfg env ch :
  Forall (fun c => forall st, erase_text (fst (mask_elem cfg env c st)) = erase_text c) ch ->
  forall st, map erase_text (fst (for_each (mask_elem cfg env) ch st)) = map erase_text ch.
Proof.
  induction 1 as [|c ch Hc _ IH]; intros st; [reflexivity|].
  rewrite for_each_cons. cbn [fst map]. now rewrite Hc, IH.
Qed.

(** X7. [mask_values] touches element texts and nothing else: with the
    texts left out, the tree afterwards is the tree before. Tags,
    attributes (also numeric ones), tails and the order of children are
    kept. *)
Theorem mask_values_only_texts env tree cfg st :
  erase_text (getroot (fst (mask_values env tree cfg st))) = erase_text (getroot tree).
Proof.
  rewrite mask_values_eq. cbn [fst getroot]. revert st.
  induction (getroot tree) as [tag att txt ch tl IHch] using Element_ind_children.
  intros st. rewrite mask_elem_eq. cbn [fst erase_text].
  now rewrite for_each_mask_erase.
Qed.

Lemma is_hex_not_space c : Text.is_hex c = true -> Text.is_space c = false.
Proof.
  destruct c as [[] [] [] [] [] [] [] []]; vm_compute; intros E;
    first [reflexivity | discriminate E].
Qed.

Lemma lstrip_head c l : Text.is_space c = false -> Text.lstrip (c :: l) = c :: l.
Proof. intros Hc. cbn [Text.lstrip]. now rewrite Hc. Qed.

(** A placeholder has no white space at its ends. *)
Lemma strip_placeholder env j : Text.strip (placeholder_of env j) = placeholder_of env j.
Proof.
  unfold Text.strip. rewrite placeholder_chars.
  pose proof (uid_chars_length (uuid4_bytes env j)) as Hlen.
  pose proof (uid_chars_hex (uuid4_bytes env j)) as Hhex.
  set (uid := Text.chars (uuid_hex12 (uuid4_bytes env j))) in *.
  change (VAL_ ++ uid) with ("V"%char :: ("A"%char :: "L"%char :: "_"%char :: uid)).
  rewrite lstrip_head by reflexivity.
  change ("V"%char :: ("A"%char :: "L"%char :: "_"%char :: uid)) with (VAL_ ++ uid).
  destruct (rev uid) as [|c r] eqn:Hrev.
  { apply (f_equal (@length ascii)) in Hrev. rewrite length_rev in Hrev.
    rewrite Hlen in Hrev. discriminate Hrev. }
  assert (Hc : Text.is_hex c = true).
  { rewrite Forall_forall in Hhex. apply Hhex.
    apply list_elem_of_In, in_rev. rewrite Hrev. now left. }
  rewrite rev_app_distr, Hrev. cbn [app]. rewrite lstrip_head by now apply is_hex_not_space.
  change (c :: r ++ rev VAL_) with ((c :: r) ++ rev VAL_).
  rewrite <- Hrev, <- rev_app_distr, rev_involutive.
  subst uid. rewrite <- placeholder_chars. apply str_chars.
Qed.

Lemma numeric_rejects_placeholder env j :
  Text.numeric_fullmatch (placeholder_of env j) = false.
Proof.
  unfold Text.numeric_fullmatch. rewrite placeholder_chars. reflexivity.
Qed.

Lemma Forall2_both {A B} (P Q : A -> B -> Prop) l k :
  Forall2 P l k -> Forall2 Q l k -> Forall2 (fun x y => P x y /\ Q x y) l k.
Proof.
  induction 1 as [|x y l k Hxy _ IH]; intros HQ; inversion HQ; subst;
    constructor; auto.
Qed.

(** The nodes after masking, one by one against the nodes before: the
    tag is the same, and the text is a placeholder of this run where the
    body masked and the old text elsewhere. *)
Lemma mask_values_nodes env tree cfg k v :
  Forall2 (fun n n' =>
             tag_of n' = tag_of n
             /\ if maskable cfg n
                then exists j, text_of n' = Some (placeholder_of env j)
                else text_of n' = text_of n)
    (iter (getroot tree)) (iter (getroot (fst (mask_values env tree cfg (k, v))))).
Proof.
  apply Forall2_both.
  - apply (map_eq_Forall2 tag_of). rewrite mask_values_eq. cbn [fst getroot].
    apply mask_elem_iter.
  - apply (Forall2_map_r
             (fun n o => if maskable cfg n
                         then exists j, o = Some (placeholder_of env j)
                         else o = text_of n) text_of).
    rewrite mask_values_texts.
    eapply Forall2_impl; [apply mask_list_texts|]. cbv beta. intros n o Hno.
    destruct (maskable cfg n); [|exact Hno].
    destruct Hno as (j & _ & -> & _). now exists j.
Qed.

Lemma mask_values_leaves_no_match_aux env tree cfg k v :
  (forall j, value_pattern cfg (placeholder_of env j) = false) ->
  Forall (fun n' => maskable cfg n' = false)
    (iter (getroot (fst (mask_values env tree cfg (k, v))))).
Proof.
  intros Hpat. pose proof (mask_values_nodes env tree cfg k v) as Hnodes.
  induction Hnodes as [|n n' l l' [Htag Htext] _ IH]; constructor; [|exact IH].
  unfold maskable in *. rewrite Htag. destruct (tag_of n); [|reflexivity].
  destruct (negb (bool_decide (Text.strip (default "" (text_of n)) = ""))
            && value_pattern cfg (Text.strip (default "" (text_of n)))) eqn:Hm.
  - destruct Htext as [j ->]. unfold default. cbn [from_option id].
    rewrite strip_placeholder, Hpat.
    apply andb_false_r.
  - now rewrite Htext.
Qed.

(** X8. After [mask_values] no element is left whose text the loop would
    mask: when [value_pattern] does not match placeholders (as the
    default numeric grammar does not), every element text that matched
    has been replaced and a second pass would find nothing. *)
Theorem mask_values_leaves_no_match env tree cfg k v :
  (forall j, value_pattern cfg (placeholder_of env j) = false) ->
  Forall (fun n' => maskable cfg n' = false)
    (iter (getroot (fst (mask_values env tree cfg (k, v))))).
Proof. exact (mask_values_leaves_no_match_aux env tree cfg k v). Qed.

Lemma mask_values_leaves_no_match_witness :
  (forall j, value_pattern MaskingConfig_default (placeholder_of counting_env j) = false)
  /\ Forall (fun n' => maskable MaskingConfig_default n' = false)
       (iter (getroot (fst (mask_values counting_env sample_tree MaskingConfig_default
                              (0, Vault_init "vault.json"))))).
Proof.
  assert (H1 : forall j, value_pattern MaskingConfig_default
                           (placeholder_of counting_env j) = false)
    by (intros j; apply numeric_rejects_placeholder).
  split; [exact H1|].
  exact (mask_values_leaves_no_match counting_env sample_tree MaskingConfig_default
           0 (Vault_init "vault.json") H1).
Defined.

Lemma mask_list_size_le cfg env l : forall k v,
  size (entries (snd (snd (for_each (mask_node cfg env) l (k, v)))))
  <= size (entries v) + length (List.filter (maskable cfg) l).
Proof.
  induction l as [|n l IH]; intros k v; [cbn; lia|].
  cbn [List.filter]. destruct (maskable cfg n) eqn:Hm.
  - rewrite (mask_list_masks cfg env n l k v Hm). cbn [snd length].
    etransitivity; [apply IH|]. cbn [store snd entries].
    rewrite map_size_insert. destruct (entries v !! _); cbn [id]; lia.
  - rewrite (mask_list_skips cfg env n l k v Hm). cbn [snd]. apply IH.
Qed.

Lemma mask_list_size_eq cfg env l : forall k v,
  NoDup (map (placeholder_of env) (seq k (length (List.filter (maskable cfg) l)))) ->
  (forall j, k <= j < k + length (List.filter (maskable cfg) l) ->
             entries v !! placeholder_of env j = None) ->
  size (entries (snd (snd (for_each (mask_node cfg env) l (k, v)))))
  = size (entries v) + length (List.filter (maskable cfg) l).
Proof.
  induction l as [|n l IH]; intros k v; [cbn; lia|].
  cbn [List.filter]. destruct (maskable cfg n) eqn:Hm.
  - rewrite (mask_list_masks cfg env n l k v Hm). cbn [snd length seq map].
    intros Hnd Hfresh. apply NoDup_cons in Hnd as [Hk Hnd].
    rewrite IH.
    + cbn [store snd entries]. rewrite map_size_insert.
      change (Text.format default_format (uuid_hex12 (uuid4_bytes env k)))
        with (placeholder_of env k).
      rewrite (Hfresh k) by lia. lia.
    + exact Hnd.
    + intros j Hj. rewrite store_lookup_ne; [apply Hfresh; lia|].
      intros E. apply Hk. change (fst (store _ _ _ _ _)) with (placeholder_of env k) in E.
      rewrite <- E. apply list_elem_of_fmap. exists j. split; [reflexivity|].
      apply elem_of_seq. lia.
  - rewrite (mask_list_skips cfg env n l k v Hm). cbn [snd]. apply IH.
Qed.

(** X9. [mask_values] draws one UUID per masked element and stores one
    value per draw: the vault grows by at most the number of masked
    elements, and by exactly that number when the placeholders of the run
    are pairwise distinct and none was a key before. *)
Theorem mask_values_counts env tree cfg k v :
  let out := mask_values env tree cfg (k, v) in
  let masked := length (List.filter (maskable cfg) (iter (getroot tree))) in
  fst (snd out) = k + masked
  /\ Vault_len (snd (snd out)) <= Vault_len v + masked
  /\ (NoDup (map (placeholder_of env) (seq k masked)) ->
      (forall j, k <= j < k + masked -> entries v !! placeholder_of env j = None) ->
      Vault_len (snd (snd out)) = Vault_len v + masked).
Proof.
  intros out masked. subst out masked. unfold Vault_len.
  rewrite mask_values_state. split; [apply mask_list_draws|].
  split; [apply mask_list_size_le | apply mask_list_size_eq].
Qed.

Lemma mask_values_counts_witness :
  let out := mask_values counting_env sample_tree MaskingConfig_default
               (0, Vault_init "vault.json") in
  let masked :=
    length (List.filter (maskable MaskingConfig_default) (iter (getroot sample_tree))) in
  NoDup (map (placeholder_of counting_env) (seq 0 masked))
  /\ (forall j, 0 <= j < 0 + masked ->
        entries (Vault_init "vault.json") !! placeholder_of counting_env j = None)
  /\ Vault_len (snd (snd out)) = Vault_len (Vault_init "vault.json") + masked.
Proof.
  intros out masked.
  assert (H1 : NoDup (map (placeholder_of counting_env) (seq 0 masked))).
  { apply (bool_decide_unpack _). vm_compute. exact I. }
  assert (H2 : forall j, 0 <= j < 0 + masked ->
                 entries (Vault_init "vault.json") !! placeholder_of counting_env j = None).
  { intros j _. apply lookup_empty. }
  split; [exact H1|]. split; [exact H2|].
  exact (proj2 (proj2 (mask_values_counts counting_env sample_tree MaskingConfig_default
                         0 (Vault_init "vault.json"))) H1 H2).
Defined.

(** ** What shuffling keeps *)

Lemma visit_unchanged `{Lib} should ch :
  Forall (fun c => forall g, shuffle_elem should c g = (c, g)) ch ->
  forall g, visit (map (fun c => (c, shuffle_elem should c)) ch) g = (ch, g).
Proof.
  unfold visit. induction 1 as [|c ch Hc _ IH]; intros g; [reflexivity|].
  cbn [map]. rewrite for_each_cons. cbn [snd]. rewrite Hc. cbn [fst snd].
  now rewrite IH.
Qed.

Lemma shuffle_elem_nothing_selected_aux `{Lib} should e :
  Forall (fun n => should_process should (tag_of n) (children_of n) = false) (iter e) ->
  forall g, shuffle_elem should e g = (e, g).
Proof.
  induction e as [tag att txt ch tl IHch] using Element_ind_children.
  cbn [iter]. intros Hall g. apply Forall_cons in Hall as [Hroot Hkids].
  cbn [tag_of children_of] in Hroot.
  assert (Hch : Forall (fun c => forall g, shuffle_elem should c g = (c, g)) ch).
  { clear Hroot. induction IHch as [|c ch Hc _ IH]; [constructor|].
    cbn [flat_map] in Hkids. apply Forall_app in Hkids as [Hc' Hrest].
    constructor; [now apply Hc | now apply IH]. }
  cbn [shuffle_elem]. unfold should_process in Hroot.
  destruct tag as [q|]; [rewrite Hroot|]; cbn [drop take map app];
    rewrite (visit_unchanged should ch Hch); reflexivity.
Qed.

(** X10. The loop of [shuffle_siblings] leaves alone every element that
    is not selected or has fewer than two children, and elements whose
    tag is not a [str]: when no element of the tree qualifies, the tree
    is returned as it was and no random number is drawn. *)
Theorem shuffle_elem_nothing_selected `{Lib} should e :
  Forall (fun n => should_process should (tag_of n) (children_of n) = false) (iter e) ->
  forall g, shuffle_elem should e g = (e, g).
Proof. exact (shuffle_elem_nothing_selected_aux should e). Qed.

Lemma shuffle_elem_nothing_selected_witness :
  Forall (fun n => should_process (fun tag => bool_decide (tag ∈ ["element"]))
                     (tag_of n) (children_of n) = false) (iter sample_root)
  /\ shuffle_elem (H := sample_lib) (fun tag => bool_decide (tag ∈ ["element"]))
       sample_root 5 = (sample_root, 5).
Proof.
  assert (H1 : Forall (fun n => should_process (fun tag => bool_decide (tag ∈ ["element"]))
                                  (tag_of n) (children_of n) = false) (iter sample_root)).
  { repeat constructor. }
  split; [exact H1|].
  exact (shuffle_elem_nothing_selected (H := sample_lib) _ sample_root H1 5).
Defined.

(** X11. When rules are given and none of them is a [shuffle_siblings]
    rule, nothing is shuffled: the fall-back list [target_tags] is not
    consulted, whatever it holds. *)
Theorem shuffle_siblings_rules_without_shuffle `{Lib} urandom tree cfg r rs :
  Forall (fun r' => rule_action r' <> shuffle_siblings_action) (r :: rs) ->
  fst (shuffle_siblings urandom tree cfg (Some (r :: rs))) = tree.
Proof.
  intros Hrules. unfold shuffle_siblings.
  destruct (enabled cfg); [|reflexivity]. cbn [negb fst].
  assert (Hnone : filter (fun r' => rule_action r' = shuffle_siblings_action) (r :: rs) = []).
  { induction Hrules as [|r' l Hr _ IH]; [reflexivity|].
    rewrite filter_cons_False by exact Hr. exact IH. }
  rewrite Hnone. cbn [map].
  rewrite shuffle_elem_nothing_selected_aux; [now destruct tree|].
  apply Forall_forall. intros n _. unfold should_process.
  destruct (tag_of n); [|reflexivity].
  rewrite bool_decide_eq_false_2; [reflexivity|]. intros Hin. inversion Hin.
Qed.

Lemma shuffle_siblings_rules_without_shuffle_witness :
  Forall (fun r' => rule_action r' <> shuffle_siblings_action) [mask_rule "pressure"]
  /\ fst (shuffle_siblings (H := sample_lib) 0 sample_tree
            {| enabled := true; seed := None; target_tags := ["root"] |}
            (Some [mask_rule "pressure"])) = sample_tree.
Proof.
  assert (H1 : Forall (fun r' => rule_action r' <> shuffle_siblings_action)
                 [mask_rule "pressure"]).
  { repeat constructor. discriminate. }
  split; [exact H1|].
  exact (shuffle_siblings_rules_without_shuffle (H := sample_lib) 0 sample_tree _ _ _ H1).
Defined.

Lemma reordered_ind_children (P : Element -> Element -> Prop) :
  (forall tag att txt tl ch ch0 ch',
      Permutation ch ch0 -> Forall2 P ch0 ch' ->
      P (Node tag att txt ch tl) (Node tag att txt ch' tl)) ->
  forall e e', reordered e e' -> P e e'.
Proof.
  intros step. fix IH 3. intros e e' [tag att txt tl ch ch0 ch' Hperm Hkids].
  apply (step tag att txt tl ch ch0 ch' Hperm). clear Hperm.
  revert ch0 ch' Hkids. fix IHkids 3.
  intros ch0 ch' [|c c' l l' Hc Hl]; constructor; [apply IH, Hc | apply IHkids, Hl].
Qed.

Lemma reordered_labels e e' :
  reordered e e' -> Permutation (map label (iter e)) (map label (iter e')).
Proof.
  induction 1 as [tag att txt tl ch ch0 ch' Hperm Hkids] using reordered_ind_children.
  cbn [iter map]. apply perm_skip.
  transitivity (map label (flat_map iter ch0)).
  - apply Permutation_map, Permutation_flat_map, Hperm.
  - clear Hperm. induction Hkids as [|c c' l l' Hc _ IH]; [reflexivity|].
    cbn [flat_map]. rewrite !map_app. now apply Permutation_app.
Qed.

(** X12. Over the whole document [shuffle_siblings] keeps the nodes:
    the tags, attributes, texts and tails of all nodes, taken together
    with their multiplicities, are the same before and after; only the
    order in which the nodes appear can differ. In particular the number
    of nodes is kept. *)
Theorem shuffle_elem_keeps_nodes `{Lib} should e g :
  Permutation (map label (iter e)) (map label (iter (fst (shuffle_elem should e g))))
  /\ length (iter (fst (shuffle_elem should e g))) = length (iter e).
Proof.
  pose proof (reordered_labels _ _ (shuffle_elem_reordered should e g)) as Hperm.
  split; [exact Hperm|].
  apply Permutation_length in Hperm. rewrite !length_map in Hperm. now symmetry.
Qed.

(** ** Tag shadowing *)

Lemma shadow_elem_tags m e :
  map tag_of (iter (shadow_elem m e)) = map (fun n => shadow_tag m (tag_of n)) (iter e).
Proof.
  induction e as [tag att txt ch tl IHch] using Element_ind_children.
  cbn [shadow_elem iter map tag_of]. f_equal.
  induction IHch as [|c ch Hc _ IH]; [reflexivity|].
  cbn [map flat_map]. rewrite !map_app, Hc, IH. reflexivity.
Qed.








Lemma shadow_elem_erase_tags m e :
  map (fun n => (attrib_of n, text_of n, tail_of n, length (children_of n)))
    (iter (shadow_elem m e))
  = map (fun n => (attrib_of n, text_of n, tail_of n, length (children_of n))) (iter e).
Proof.
  induction e as [tag att txt ch tl IHch] using Element_ind_children.
  cbn [shadow_elem iter map attrib_of text_of tail_of children_of].
  rewrite length_map. f_equal.
  induction IHch as [|c ch Hc _ IH]; [reflexivity|].
  cbn [map flat_map]. rewrite !map_app, Hc, IH. reflexivity.
Qed.

(** ** The pipeline as a whole *)




(** X17. A call of [apply_gatekeeper] that returns has written the two
    files it names and no other: every other path holds what it held;
    and it has drawn one UUID per masked element when masking was
    active, none otherwise. *)
Theorem apply_gatekeeper_writes_two_files `{Lib} env u w xml_path policy config
    output_dir tag_map sp vp w' :
  apply_gatekeeper env u w xml_path policy config output_dir tag_map
    = (inr (sp, vp), w') ->
  (forall p, p <> sp -> p <> vp -> fs w' !! p = fs w !! p)
  /\ is_Some (fs w' !! sp) /\ is_Some (fs w' !! vp)
  /\ exists tree,
       etree_parse (fs w) (path_str xml_path) = inr tree
       /\ draws w'
          = draws w
            + (if masking_active policy
               then length (List.filter (maskable (masking config)) (iter (getroot tree)))
               else 0).
Proof.
  intros Hrun.
  destruct (apply_gatekeeper_returns _ _ _ _ _ _ _ _ _ _ _ Hrun)
    as (tree & Hparse & _ & Hvp & Hdraws & Hfs).
  split; [|split; [|split]].
  - intros p Hsp Hp. rewrite Hfs.
    rewrite lookup_insert_ne by congruence. now rewrite lookup_insert_ne by congruence.
  - rewrite Hfs. destruct (decide (vp = sp)) as [->|Hne].
    + rewrite lookup_insert_eq. eauto.
    + rewrite lookup_insert_ne by exact Hne. rewrite lookup_insert_eq. eauto.
  - rewrite Hfs, lookup_insert_eq. eauto.
  - exists tree. split; [exact Hparse|]. rewrite Hdraws. unfold after_masking.
    destruct (masking_active policy); [|cbn; lia].
    rewrite mask_values_state. apply mask_list_draws.
Qed.

Lemma apply_gatekeeper_writes_two_files_witness :
  let run :=
    apply_gatekeeper (H := sample_lib) counting_env 0 sample_world sample_path
      masking_policy PolicyEngineConfig_default None None in
  run = (inr ("data/sample_sanitized.xml", "./session_vault.json"), snd run)
  /\ fs (snd run) !! "data/sample.xml" = fs sample_world !! "data/sample.xml".
Proof.
  intros run.
  assert (H1 : run = (inr ("data/sample_sanitized.xml", "./session_vault.json"), snd run))
    by (vm_compute; reflexivity).
  split; [exact H1|].
  apply (proj1 (apply_gatekeeper_writes_two_files (H := sample_lib) counting_env 0
                  sample_world sample_path masking_policy PolicyEngineConfig_default
                  None None _ _ _ H1)); discriminate.
Defined.




(** ** Policies written and read back *)

Lemma action_of_name_name a : action_of_name (action_name a) = Some a.
Proof. destruct a; reflexivity. Qed.

Lemma string_items_parameters ps :
  string_items (map (fun kv => (fst kv, PStr (snd kv))) ps) = Some ps.
Proof.
  induction ps as [|[k s] ps IH]; [reflexivity|].
  cbn [map fst snd string_items]. now rewrite IH.
Qed.

Lemma rule_dict_round_trip_aux rule :
  _rule_from_dict (_rule_to_dict rule) = Built (reloaded rule)
  /\ (reloaded rule = rule <-> parameters rule <> Some []).
Proof.
  split.
  - unfold _rule_from_dict, _rule_to_dict, reloaded.
    destruct rule as [t a [[|p ps]|]]; cbn [tag_pattern rule_action parameters app];
      cbn [dict_get]; repeat (destruct (decide _); try congruence);
      rewrite action_of_name_name; try reflexivity.
    unfold parameters_to_data. now rewrite string_items_parameters.
  - unfold reloaded. destruct rule as [t a [[|p ps]|]]; cbn; split; congruence.
Qed.

(** X19. A rule written by [_rule_to_dict] and read by [_rule_from_dict]
    comes back with its tag pattern, action and parameters, except that
    an empty [parameters] dict is not written and comes back as [None]:
    the round trip is the identity exactly on rules whose [parameters]
    is not the empty dict. *)
Theorem rule_dict_round_trip rule :
  _rule_from_dict (_rule_to_dict rule) = Built (reloaded rule)
  /\ (reloaded rule = rule <-> parameters rule <> Some []).
Proof. exact (rule_dict_round_trip_aux rule). Qed.

Lemma rules_from_list_round_trip rs :
  rules_from_list (map _rule_to_dict rs) = Built (map reloaded rs).
Proof.
  induction rs as [|r rs IH]; [reflexivity|].
  cbn [map rules_from_list]. rewrite (proj1 (rule_dict_round_trip_aux r)), IH. reflexivity.
Qed.

Lemma policy_round_trip_aux policy :
  Forall (fun r => parameters r <> Some []) (rules policy) ->
  load_policy_data (save_policy_data policy) = Built policy.
Proof.
  intros Hrules. unfold load_policy_data, save_policy_data.
  cbn [dict_get]. repeat (destruct (decide _); try congruence). cbn [default from_option id].
  rewrite rules_from_list_round_trip.
  assert (Hmap : map reloaded (rules policy) = rules policy).
  { induction Hrules as [|r rs Hr _ IH]; [reflexivity|].
    cbn [map]. rewrite IH. f_equal. now apply rule_dict_round_trip_aux. }
  rewrite Hmap. destruct policy as [ver gm rs [t|]]; reflexivity.
Qed.

(** X20. A policy written by [save_policy] and read by [load_policy]
    comes back equal when none of its rules has an empty [parameters]
    dict; version, masking flag, time stamp and the order of the rules
    are kept. *)
Theorem policy_round_trip policy :
  Forall (fun r => parameters r <> Some []) (rules policy) ->
  load_policy_data (save_policy_data policy) = Built policy.
Proof. exact (policy_round_trip_aux policy). Qed.

Lemma policy_round_trip_witness :
  Forall (fun r => parameters r <> Some []) (rules sample_policy)
  /\ load_policy_data (save_policy_data sample_policy) = Built sample_policy.
Proof.
  assert (H1 : Forall (fun r => parameters r <> Some []) (rules sample_policy)).
  { repeat constructor; discriminate. }
  split; [exact H1|].
  exact (policy_round_trip sample_policy H1).
Defined.

(** ** The rules of the detector *)

Lemma count_get_count_tag c d c' :
  count_get (count_tag c d) c' = if decide (c = c') then S (count_get d c') else count_get d c'.
Proof.
  induction d as [|[k n] d IH]; cbn [count_tag count_get].
  - destruct (decide (c = c')); reflexivity.
  - destruct (decide (k = c)) as [->|Hk]; cbn [count_get].
    + destruct (decide (c = c')); reflexivity.
    + destruct (decide (k = c')) as [->|Hk']; [|exact IH].
      destruct (decide (c = c')); [congruence | reflexivity].
Qed.

Lemma count_tag_keys c d x :
  x ∈ map fst (count_tag c d) -> x = c \/ x ∈ map fst d.
Proof.
  induction d as [|[k n] d IH]; cbn [count_tag map fst].
  - intros Hx. apply list_elem_of_singleton in Hx. now left.
  - destruct (decide (k = c)) as [->|Hk]; cbn [map fst]; intros Hx.
    + now right.
    + apply elem_of_cons in Hx as [->|Hx]; [right; now left|].
      destruct (IH Hx) as [->|Hin]; [now left | right; now right].
Qed.

Lemma count_tag_NoDup c d : NoDup (map fst d) -> NoDup (map fst (count_tag c d)).
Proof.
  induction d as [|[k n] d IH]; cbn [count_tag map fst]; intros Hnd.
  - repeat constructor. intros Hin. inversion Hin.
  - destruct (decide (k = c)) as [->|Hk]; cbn [map fst]; [exact Hnd|].
    apply NoDup_cons in Hnd as [Hk' Hnd]. apply NoDup_cons. split; [|now apply IH].
    intros Hin. apply count_tag_keys in Hin as [->|Hin]; [congruence | contradiction].
Qed.

Lemma count_get_elem d c k :
  NoDup (map fst d) -> (c, k) ∈ d -> count_get d c = k.
Proof.
  induction d as [|[k0 n] d IH]; intros Hnd Hin; [inversion Hin|].
  cbn [map fst] in Hnd. apply NoDup_cons in Hnd as [Hk0 Hnd].
  cbn [count_get]. apply elem_of_cons in Hin as [[= -> ->]|Hin].
  - now rewrite decide_True.
  - destruct (decide (k0 = c)) as [->|_]; [|now apply IH].
    exfalso. apply Hk0. apply list_elem_of_fmap. now exists (c, k).
Qed.

Lemma count_local_snoc c pre x :
  count_local c (pre ++ [x])
  = count_local c pre
    + match tag_of x with
      | Some q => if decide (localname q = c) then 1 else 0
      | None => 0
      end.
Proof.
  unfold count_local. rewrite List.filter_app, length_app. f_equal.
  cbn [List.filter]. destruct (tag_of x) as [q|]; [|reflexivity].
  destruct (decide (localname q = c)) as [E|E].
  - now rewrite bool_decide_eq_true_2.
  - now rewrite bool_decide_eq_false_2.
Qed.

(** The counts of the body are the numbers of children by local name. *)
Lemma count_children ch : forall d pre,
  NoDup (map fst d) ->
  Forall (fun c => c <> "") (map fst d) ->
  (forall c, c <> "" -> count_get d c = count_local c pre) ->
  let d' := fold_left count_child ch d in
  NoDup (map fst d')
  /\ Forall (fun c => c <> "") (map fst d')
  /\ (forall c, c <> "" -> count_get d' c = count_local c (pre ++ ch)).
Proof.
  induction ch as [|x ch IH]; intros d pre Hnd Hne Hcount.
  - cbn. rewrite app_nil_r. auto.
  - cbn [fold_left]. replace (pre ++ x :: ch) with ((pre ++ [x]) ++ ch)
      by now rewrite <- app_assoc.
    apply IH.
    + unfold count_child. destruct (tag_of x) as [q|]; [|exact Hnd].
      destruct (decide (localname q = "")); [exact Hnd | now apply count_tag_NoDup].
    + unfold count_child. destruct (tag_of x) as [q|]; [|exact Hne].
      destruct (decide (localname q = "")) as [|Hq]; [exact Hne|].
      apply Forall_forall. intros c Hc.
      apply count_tag_keys in Hc as [->|Hc]; [exact Hq|].
      rewrite Forall_forall in Hne. now apply Hne.
    + intros c Hc. rewrite count_local_snoc, <- Hcount by exact Hc.
      unfold count_child. destruct (tag_of x) as [q|]; [|lia].
      destruct (decide (localname q = "")) as [E|Hq].
      * rewrite E. destruct (decide ("" = c)); [congruence | lia].
      * rewrite count_get_count_tag. destruct (decide (localname q = c)); lia.
Qed.

Lemma child_tags_counts ch c k :
  (c, k) ∈ fold_left count_child ch [] -> c <> "" /\ k = count_local c ch.
Proof.
  intros Hin.
  destruct (count_children ch [] []) as (Hnd & Hne & Hcount);
    [constructor | constructor | reflexivity |].
  assert (Hc : c <> "").
  { rewrite Forall_forall in Hne. apply Hne. apply list_elem_of_fmap. now exists (c, k). }
  split; [exact Hc|]. pose proof (Hcount c Hc) as E. cbn [app] in E.
  rewrite <- E. symmetry. now apply count_get_elem.
Qed.

Section Detector.
Variable root : Element.

(** What stands behind a rule: an element of the document with the
    rule's tag pattern as local name, and the check that emitted it. *)
Let backed (r : Rule) : Prop :=
  exists n q,
    n ∈ iter root /\ tag_of n = Some q /\ tag_pattern r = localname q
    /\ ((r = mask_rule (localname q)
         /\ (has_keyword (localname q) = true \/ has_numeric_text n = true))
        \/ exists c, r = shuffle_rule (localname q) c
                     /\ c <> "" /\ 2 <= count_local c (children_of n)).

(** Every rule is filed in [seen_tags] under its key. *)
Let keyed (seen : gset string) (r : Rule) : Prop :=
  (exists t, r = mask_rule t /\ t ∈ seen)
  \/ (exists t c, r = shuffle_rule t c /\ (t ++ "/" ++ c)%string ∈ seen).

Let good (st : detector_state) : Prop :=
  NoDup (snd st) /\ Forall (keyed (fst st)) (snd st) /\ Forall backed (snd st).

Lemma keyed_mono seen seen' r : seen ⊆ seen' -> keyed seen r -> keyed seen' r.
Proof.
  intros Hsub [(t & -> & Ht)|(t & c & -> & Hk)].
  - left. exists t. split; [reflexivity | set_solver].
  - right. exists t, c. split; [reflexivity | set_solver].
Qed.

Lemma good_add seen rules0 r key :
  good (seen, rules0) ->
  key ∉ seen ->
  keyed ({[key]} ∪ seen) r ->
  (forall seen', keyed seen' r -> key ∈ seen') ->
  backed r ->
  good ({[key]} ∪ seen, rules0 ++ [r]).
Proof.
  intros (Hnd & Hkeyed & Hbacked) Hfresh Hr Hkey Hb. cbn [fst snd] in *.
  split; [|split].
  - apply NoDup_app. split; [exact Hnd|]. split; [|repeat constructor; set_solver].
    intros x Hx Hx'. apply list_elem_of_singleton in Hx' as ->.
    rewrite Forall_forall in Hkeyed. apply Hfresh, Hkey, Hkeyed, Hx.
  - apply Forall_app. split; [|constructor; [exact Hr | constructor]].
    eapply Forall_impl; [exact Hkeyed|]. intros x. apply keyed_mono. set_solver.
  - apply Forall_app. split; [exact Hbacked | constructor; [exact Hb | constructor]].
Qed.

Lemma mask_rule_key t seen' : keyed seen' (mask_rule t) -> t ∈ seen'.
Proof.
  intros [(t' & E & Ht)|(t' & c & E & _)]; [|discriminate E].
  now injection E as ->.
Qed.

Lemma shuffle_rule_key t c seen' :
  keyed seen' (shuffle_rule t c) -> (t ++ "/" ++ c)%string ∈ seen'.
Proof.
  intros [(t' & E & _)|(t' & c' & E & Hk)]; [discriminate E|].
  now injection E as -> ->.
Qed.

Lemma emit_shuffle_good n q items st :
  n ∈ iter root -> tag_of n = Some q ->
  Forall (fun item => fst item <> "" /\ snd item = count_local (fst item) (children_of n))
    items ->
  good st -> good (fold_left (emit_shuffle (localname q)) items st).
Proof.
  intros Hn Hq Hitems. revert st.
  induction Hitems as [|[c k] items [Hc Hk] _ IH]; intros st Hgood; [exact Hgood|].
  cbn [fold_left]. apply IH. destruct st as [seen rules0]. cbn [emit_shuffle fst snd] in *.
  destruct ((2 <=? k)%nat && negb (bool_decide ((localname q ++ "/" ++ c)%string ∈ seen)))
    eqn:Hguard; [|exact Hgood].
  apply andb_true_iff in Hguard as [Hk2 Hfresh].
  apply Nat.leb_le in Hk2. apply negb_true_iff, bool_decide_eq_false in Hfresh.
  apply good_add; [exact Hgood | exact Hfresh | | apply shuffle_rule_key |].
  - right. exists (localname q), c. split; [reflexivity | set_solver].
  - exists n, q. split; [exact Hn|]. split; [exact Hq|]. split; [reflexivity|].
    right. exists c. split; [reflexivity|]. split; [exact Hc | lia].
Qed.

Lemma detect_elem_good n st : n ∈ iter root -> good st -> good (detect_elem st n).
Proof.
  intros Hn Hgood. destruct st as [seen rules0]. unfold detect_elem.
  destruct (tag_of n) as [q|] eqn:Hq; [|exact Hgood].
  fold (has_keyword (localname q)).
  destruct (has_keyword (localname q) && negb (bool_decide (localname q ∈ seen))) eqn:H1.
  { apply andb_true_iff in H1 as [Hkw Hfresh].
    apply negb_true_iff, bool_decide_eq_false in Hfresh.
    apply good_add; [exact Hgood | exact Hfresh | | apply mask_rule_key |].
    - left. exists (localname q). split; [reflexivity | set_solver].
    - exists n, q. split; [exact Hn|]. split; [exact Hq|]. split; [reflexivity|].
      left. split; [reflexivity | now left]. }
  fold (stripped_text n). fold (has_numeric_text n).
  destruct (has_numeric_text n && negb (bool_decide (localname q ∈ seen))) eqn:H2.
  { apply andb_true_iff in H2 as [Hnum Hfresh].
    apply negb_true_iff, bool_decide_eq_false in Hfresh.
    apply good_add; [exact Hgood | exact Hfresh | | apply mask_rule_key |].
    - left. exists (localname q). split; [reflexivity | set_solver].
    - exists n, q. split; [exact Hn|]. split; [exact Hq|]. split; [reflexivity|].
      left. split; [reflexivity | now right]. }
  apply (emit_shuffle_good n q); [exact Hn | exact Hq | | exact Hgood].
  apply Forall_forall. intros [c k] Hin. cbn [fst snd].
  now apply child_tags_counts.
Qed.

Lemma detect_fold_good l st :
  (forall n, n ∈ l -> n ∈ iter root) -> good st -> good (fold_left detect_elem l st).
Proof.
  revert st. induction l as [|n l IH]; intros st Hl Hgood; [exact Hgood|].
  cbn [fold_left]. apply IH; [intros m Hm; apply Hl; now right|].
  apply detect_elem_good; [apply Hl; now left | exact Hgood].
Qed.

Lemma detect_rules_good :
  NoDup (detect_rules root) /\ Forall backed (detect_rules root)
  /\ Forall (fun r => parameters r <> Some []) (detect_rules root).
Proof.
  unfold detect_rules.
  destruct (detect_fold_good (iter root) (∅, [])) as (Hnd & Hkeyed & Hbacked).
  - auto.
  - split; [constructor | split; constructor].
  - split; [exact Hnd|]. split; [exact Hbacked|].
    eapply Forall_impl; [exact Hkeyed|]. intros r [(t & -> & _)|(t & c & -> & _)]; discriminate.
Qed.

End Detector.

(** X21. The detector never emits a rule twice: the rules of a document
    are pairwise different, and each is a [mask_value] rule without
    parameters or a [shuffle_siblings] rule with one [child_tag]; so a
    tag gets at most one [mask_value] rule and a parent/child pair at
    most one [shuffle_siblings] rule. *)
Theorem detect_rules_no_duplicates root :
  NoDup (detect_rules root)
  /\ Forall (fun r => (exists t, r = mask_rule t) \/ (exists t c, r = shuffle_rule t c))
       (detect_rules root).
Proof.
  destruct (detect_rules_good root) as (Hnd & Hbacked & _).
  split; [exact Hnd|].
  eapply Forall_impl; [exact Hbacked|]. cbv beta.
  intros r (n & q & _ & _ & _ & [[-> _]|(c & -> & _)]).
  - left. now exists (localname q).
  - right. now exists (localname q), c.
Qed.

(** X22. Every rule of the detector is backed by the document: its tag
    pattern is the local name of an element; a [mask_value] rule comes
    from an element whose tag contains a sensitive keyword or whose
    stripped text is numeric; a [shuffle_siblings] rule comes from an
    element with at least two children of the local name in
    [child_tag]. *)
Theorem detect_rules_backed root :
  Forall (fun r =>
            exists n q,
              n ∈ iter root /\ tag_of n = Some q /\ tag_pattern r = localname q
              /\ ((r = mask_rule (localname q)
                   /\ (has_keyword (localname q) = true \/ has_numeric_text n = true))
                  \/ exists c, r = shuffle_rule (localname q) c
                               /\ c <> "" /\ 2 <= count_local c (children_of n)))
    (detect_rules root).
Proof. apply detect_rules_good. Qed.

(** X23. A policy made by [generate_policy], written by [save_policy]
    and read by [load_policy] is the policy that was made. *)
Theorem generated_policy_round_trip files xml_path now policy :
  generate_policy files xml_path now = inr policy ->
  load_policy_data (save_policy_data policy) = Built policy.
Proof.
  unfold generate_policy. destruct (etree_parse files xml_path) as [e|tree]; [discriminate|].
  intros [= <-]. apply policy_round_trip_aux. cbn [rules]. apply detect_rules_good.
Qed.

Lemma generated_policy_round_trip_witness :
  let made :=
    {| version := "1.0"; global_masking := false;
       rules := detect_rules sample_root; policy_created_at := Some "t0" |} in
  generate_policy (fs sample_world) "data/sample.xml" "t0" = inr made
  /\ load_policy_data (save_policy_data made) = Built made.
Proof.
  intros made.
  assert (H1 : generate_policy (fs sample_world) "data/sample.xml" "t0" = inr made)
    by (vm_compute; reflexivity).
  split; [exact H1|].
  exact (generated_policy_round_trip (fs sample_world) "data/sample.xml" "t0" made H1).
Defined.

Lemma contains_slash a c : Text.contains "/" (a ++ "/" ++ c)%string = true.
Proof.
  unfold Text.contains. rewrite chars_app.
  change (Text.chars ("/" ++ c)%string) with ("/"%char :: Text.chars c).
  induction (Text.chars a) as [|x l IH]; [reflexivity|].
  cbn [app Text.find_in]. rewrite IH. apply orb_true_r.
Qed.

Section DetectorCovers.

(** Every key in [seen_tags] is the tag of a [mask_value] rule or a
    key of the form parent/child. *)
Let covers (st : detector_state) : Prop :=
  forall t, t ∈ fst st -> mask_rule t ∈ snd st \/ Text.contains "/" t = true.

Let grows (st st' : detector_state) : Prop :=
  fst st ⊆ fst st' /\ (forall r, r ∈ snd st -> r ∈ snd st') /\ (covers st -> covers st').

Lemma grows_refl st : grows st st.
Proof. split; [set_solver | split; auto]. Qed.

Lemma grows_trans st1 st2 st3 : grows st1 st2 -> grows st2 st3 -> grows st1 st3.
Proof.
  intros (Hs1 & Hr1 & Hc1) (Hs2 & Hr2 & Hc2).
  split; [set_solver | split; auto].
Qed.

Lemma emit_shuffle_grows tag items : forall st,
  grows st (fold_left (emit_shuffle tag) items st).
Proof.
  induction items as [|[c k] items IH]; intros st; [apply grows_refl|].
  cbn [fold_left]. eapply grows_trans; [|apply IH].
  destruct st as [seen rules0]. cbn [emit_shuffle].
  destruct ((2 <=? k)%nat && _); [|apply grows_refl].
  split; [cbn; set_solver|]. split.
  - intros r Hr. cbn in *. apply elem_of_app. now left.
  - intros Hcov t Ht. cbn [fst snd] in *.
    apply elem_of_union in Ht as [Ht|Ht].
    + apply elem_of_singleton in Ht as ->. right. apply contains_slash.
    + destruct (Hcov t Ht) as [Hin|Hs]; [left; apply elem_of_app; now left | now right].
Qed.

Lemma mask_branch_grows seen rules0 tag :
  grows (seen, rules0) ({[tag]} ∪ seen, rules0 ++ [mask_rule tag]).
Proof.
  split; [cbn; set_solver|]. split.
  - intros r Hr. cbn in *. apply elem_of_app. now left.
  - intros Hcov t Ht. cbn [fst snd] in *.
    apply elem_of_union in Ht as [Ht|Ht].
    + apply elem_of_singleton in Ht as ->. left. apply elem_of_app. right. now left.
    + destruct (Hcov t Ht) as [Hin|Hs]; [left; apply elem_of_app; now left | now right].
Qed.

Lemma detect_elem_grows st n :
  grows st (detect_elem st n)
  /\ forall q, tag_of n = Some q ->
               has_keyword (localname q) = true \/ has_numeric_text n = true ->
               localname q ∈ fst (detect_elem st n).
Proof.
  destruct st as [seen rules0]. unfold detect_elem.
  destruct (tag_of n) as [q|] eqn:Hq; [|split; [apply grows_refl | discriminate]].
  fold (has_keyword (localname q)). fold (stripped_text n). fold (has_numeric_text n).
  destruct (bool_decide (localname q ∈ seen)) eqn:Hseen.
  - (* the tag is already seen: both masking checks are passed over *)
    rewrite !andb_false_r. split; [apply emit_shuffle_grows|].
    intros q' [= <-] _. apply bool_decide_eq_true in Hseen.
    now apply (emit_shuffle_grows (localname q) _ (seen, rules0)).
  - cbn [negb]. rewrite !andb_true_r.
    destruct (has_keyword (localname q)) eqn:Hkw.
    { split; [apply mask_branch_grows|]. intros q' [= <-] _. cbn. set_solver. }
    destruct (has_numeric_text n) eqn:Hnum.
    { split; [apply mask_branch_grows|]. intros q' [= <-] _. cbn. set_solver. }
    split; [apply emit_shuffle_grows|]. intros q' [= <-] [H1|H1]; congruence.
Qed.

Lemma detect_fold_grows l : forall st, grows st (fold_left detect_elem l st).
Proof.
  induction l as [|n l IH]; intros st; [apply grows_refl|].
  cbn [fold_left]. eapply grows_trans; [apply detect_elem_grows | apply IH].
Qed.

Lemma detect_rules_masks root n q :
  n ∈ iter root -> tag_of n = Some q ->
  has_keyword (localname q) = true \/ has_numeric_text n = true ->
  Text.contains "/" (localname q) = false ->
  mask_rule (localname q) ∈ detect_rules root.
Proof.
  intros Hn Hq Hcheck Hslash. unfold detect_rules.
  apply list_elem_of_split in Hn as (l1 & l2 & ->).
  rewrite fold_left_app. cbn [fold_left].
  set (st1 := fold_left detect_elem l1 (∅, [])).
  destruct (detect_fold_grows l1 (∅, [])) as (_ & _ & Hcov1). fold st1 in Hcov1.
  destruct (detect_elem_grows st1 n) as [(_ & _ & Hcov2) Hin].
  destruct (detect_fold_grows l2 (detect_elem st1 n)) as (_ & Hrules & _).
  apply Hrules.
  destruct (Hcov2 (Hcov1 ltac:(intros t Ht; cbn in Ht; set_solver))
              (localname q) (Hin q Hq Hcheck)) as [Hr|Hs]; [exact Hr | congruence].
Qed.

End DetectorCovers.

(** X24. Every element whose tag contains a sensitive keyword, or whose
    stripped text is numeric, gets a [mask_value] rule for its tag,
    wherever it stands in the document (the tag is a name without a
    slash, as every XML name is). *)
Theorem detect_rules_masks_sensitive root n q :
  n ∈ iter root -> tag_of n = Some q ->
  has_keyword (localname q) = true \/ has_numeric_text n = true ->
  Text.contains "/" (localname q) = false ->
  mask_rule (localname q) ∈ detect_rules root.
Proof. exact (detect_rules_masks root n q). Qed.

Lemma detect_rules_masks_sensitive_witness :
  let n := elem "pressure" (Some "678.90") [] in
  let q := {| namespace := None; localname := "pressure" |} in
  n ∈ iter sample_root /\ tag_of n = Some q
  /\ (has_keyword (localname q) = true \/ has_numeric_text n = true)
  /\ Text.contains "/" (localname q) = false
  /\ mask_rule (localname q) ∈ detect_rules sample_root.
Proof.
  intros n q.
  assert (H1 : n ∈ iter sample_root).
  { cbn. do 4 right. left. }
  assert (H2 : tag_of n = Some q) by reflexivity.
  assert (H3 : has_keyword (localname q) = true \/ has_numeric_text n = true)
    by (left; reflexivity).
  assert (H4 : Text.contains "/" (localname q) = false) by reflexivity.
  split; [exact H1|]. split; [exact H2|]. split; [exact H3|]. split; [exact H4|].
  exact (detect_rules_masks_sensitive sample_root n q H1 H2 H3 H4).
Defined.

(** X25. Tag shadowing changes names only: node by node, in document
    order, the attributes, the text, the tail and the number of children
    are those of the input, and a node whose tag is not a [str] keeps
    it. *)
Theorem shadow_elem_keeps_content m e :
  map (fun n => (attrib_of n, text_of n, tail_of n, length (children_of n)))
    (iter (shadow_elem m e))
  = map (fun n => (attrib_of n, text_of n, tail_of n, length (children_of n))) (iter e)
  /\ Forall2 (fun n n' => tag_of n = None <-> tag_of n' = None)
       (iter e) (iter (shadow_elem m e)).
Proof.
  split; [apply shadow_elem_erase_tags|].
  apply (Forall2_map_r (fun n t => tag_of n = None <-> t = None) tag_of).
  rewrite shadow_elem_tags.
  induction (iter e) as [|n l IH]; constructor; [|exact IH].
  unfold shadow_tag. destruct (tag_of n) as [q|]; [|tauto].
  destruct (m !! localname q); [|split; discriminate].
  destruct (namespace q) as [ns|]; [destruct (decide (ns = ""))|]; split; discriminate.
Qed.
